(** * Analytical kernels of the FEniCSx electromagnetic demos

    The repository is a Jupyter book; the only numerical logic it implements
    itself lives in two small Python modules:

    - [analytical_modes.py]: [TMx_condition], [TEx_condition] and
      [verify_mode] (dispersion relations of the half-loaded waveguide);
    - [analytical_efficiencies_wire.py]: [compute_a] and
      [calculate_analytical_efficiencies] (Mie series of a wire).

    Numeric model.  IEEE doubles are idealised as real numbers and
    [complex128] as pairs of reals, so rounding, infinities and NaN are not
    represented.  Two kinds of division occur in the source and are kept
    apart:

    - a division between plain Python numbers ([2 * np.pi / lmbd0]) raises
      [ZeroDivisionError] on a zero divisor: [py_truediv] below;
    - a division in which an operand is a numpy scalar ([kx_d / eps_d],
      [a_nu_num / a_nu_den]) never raises (numpy warns and yields inf or
      nan): it is the total division of the model, [Cdiv].

    The scalar arguments of both kernels are plain Python numbers: the
    annotations of [calculate_analytical_efficiencies] say [float], and the
    demos pass literals ([w = 1], [lmbd0 = h / 0.2], [wl0 = 0.4]). *)

From Stdlib Require Import Reals Lra Lia ZArith List Bool.
From Stdlib Require Import Sorted.
Import ListNotations.
Local Open Scope R_scope.

(* ------------------------------------------------------------------ *)
(** ** Complex numbers *)
(* ------------------------------------------------------------------ *)

Module Cx.

Definition C : Type := (R * R)%type.

Definition RtoC (x : R) : C := (x, 0).
Definition Cre (z : C) : R := fst z.
Definition Cim (z : C) : R := snd z.

Definition Cadd (z w : C) : C := (fst z + fst w, snd z + snd w).
Definition Copp (z : C) : C := (- fst z, - snd z).
Definition Csub (z w : C) : C := Cadd z (Copp w).
Definition Cmul (z w : C) : C :=
  (fst z * fst w - snd z * snd w, fst z * snd w + snd z * fst w).
Definition Cnorm2 (z : C) : R := fst z * fst z + snd z * snd z.
Definition Cinv (z : C) : C := (fst z / Cnorm2 z, - snd z / Cnorm2 z).
Definition Cdiv (z w : C) : C := Cmul z (Cinv w).
Definition Cconj (z : C) : C := (fst z, - snd z).
Definition Cmod (z : C) : R := sqrt (Cnorm2 z).

(** [z ** 2] on a complex scalar: numpy multiplies the number with itself. *)
Definition Csqr (z : C) : C := Cmul z z.

Declare Scope C_scope.
Delimit Scope C_scope with C.
Bind Scope C_scope with C.
Notation "z + w" := (Cadd z w) : C_scope.
Notation "z - w" := (Csub z w) : C_scope.
Notation "- z" := (Copp z) : C_scope.
Notation "z * w" := (Cmul z w) : C_scope.
Notation "z / w" := (Cdiv z w) : C_scope.

(** The literal [0j]. *)
Definition C0j : C := (0, 0).
Definition C_one : C := (1, 0).

(** Principal square root: non-negative real part, and the imaginary part
    takes the sign of the imaginary part of the argument (upwards on the
    negative real axis, as [np.sqrt(-4 + 0j) = 2j]). *)
Definition sgn_im (y : R) : R := if Rlt_dec y 0 then -1 else 1.

Definition csqrt (z : C) : C :=
  let r := Cmod z in
  (sqrt ((r + fst z) / 2), sgn_im (snd z) * sqrt ((r - fst z) / 2)).

(** Complex sine, cosine, tangent and cotangent. *)
Definition csin (z : C) : C :=
  (sin (fst z) * cosh (snd z), cos (fst z) * sinh (snd z)).
Definition ccos (z : C) : C :=
  (cos (fst z) * cosh (snd z), - (sin (fst z) * sinh (snd z))).
Definition ctan (z : C) : C := Cdiv (csin z) (ccos z).
Definition ccot (z : C) : C := Cdiv (ccos z) (csin z).

End Cx.
Export Cx.

(* ------------------------------------------------------------------ *)
(** ** The Python layer: exceptions and plain-number division *)
(* ------------------------------------------------------------------ *)

Inductive exn : Type := ZeroDivisionError.

Inductive result (A : Type) : Type :=
| Ret (a : A)
| Raise (e : exn).
Arguments Ret {A} a.
Arguments Raise {A} e.

Definition bind {A B : Type} (c : result A) (k : A -> result B) : result B :=
  match c with
  | Ret a => k a
  | Raise e => Raise e
  end.

Notation "x <- c ;; k" := (bind c (fun x => k))
  (at level 61, c at next level, right associativity).

(** [x / y] between plain Python floats or ints. *)
Definition py_truediv (x y : R) : result R :=
  if Req_dec_T y 0 then Raise ZeroDivisionError else Ret (x / y).

(** [range(lo, hi)]: empty when [hi <= lo]. *)
Definition range (lo hi : Z) : list Z :=
  map (fun i => (lo + Z.of_nat i)%Z) (seq 0 (Z.to_nat (hi - lo))).

(* ------------------------------------------------------------------ *)
(** ** The numpy functions the kernels call *)
(* ------------------------------------------------------------------ *)

Module np.

Definition pi : R := PI.
Definition sqrt (z : C) : C := csqrt z.
Definition conj (z : C) : C := Cconj z.
Definition tan (z : C) : C := ctan z.
Definition real (z : C) : R := Cre z.
Definition abs (z : C) : R := Cmod z.

(** Default relative tolerance of [np.isclose]. *)
Definition rtol : R := 1 / 100000.

(** [np.isclose(a, b, atol=atol)] on finite scalars is numpy's
    [abs(a - b) <= atol + rtol * abs(b)], where [abs] of a complex number is
    its modulus. *)
Definition isclose (a b : C) (atol : R) : bool :=
  if Rle_dec (abs (a - b)%C) (atol + rtol * abs b) then true else false.

End np.

(* ------------------------------------------------------------------ *)
(** ** [scipy.special]: Bessel and Hankel functions *)
(* ------------------------------------------------------------------ *)

(** The special functions are library code and stay abstract.  [jv] is a
    ufunc with a real loop ([dd->d], taken for the Python float [alpha]) and
    a complex loop ([dD->D], taken for [m * alpha]); [jvp] follows [jv];
    [hankel2] and [h2vp] only have complex loops.  The last argument of
    [jvp] and [h2vp] is the order of the derivative. *)
Record special : Type := {
  jv_d : Z -> R -> R;
  jv_D : Z -> C -> C;
  jvp_d : Z -> R -> Z -> R;
  jvp_D : Z -> C -> Z -> C;
  hankel2 : Z -> C -> C;
  h2vp : Z -> C -> Z -> C
}.

(* ------------------------------------------------------------------ *)
(** ** analytical_efficiencies_wire.py *)
(* ------------------------------------------------------------------ *)

Section Mie.

Variable sp : special.

Definition compute_a (nu : Z) (m : C) (alpha : R) : C :=
  let J_nu_alpha := RtoC (jv_d sp nu alpha) in
  let J_nu_malpha := jv_D sp nu (m * RtoC alpha)%C in
  let J_nu_alpha_p := RtoC (jvp_d sp nu alpha 1) in
  let J_nu_malpha_p := jvp_D sp nu (m * RtoC alpha)%C 1 in
  let H_nu_alpha := hankel2 sp nu (RtoC alpha) in
  let H_nu_alpha_p := h2vp sp nu (RtoC alpha) 1 in
  let a_nu_num :=
    (J_nu_alpha * J_nu_malpha_p - m * J_nu_malpha * J_nu_alpha_p)%C in
  let a_nu_den :=
    (H_nu_alpha * J_nu_malpha_p - m * J_nu_malpha * H_nu_alpha_p)%C in
  (a_nu_num / a_nu_den)%C.

(** One pass of the [for nu in range(1, num_n + 1)] body over the two
    accumulators [(q_ext, q_sca)]. *)
Definition efficiencies_step (c : R) (m : C) (alpha : R)
    (acc : R * R) (nu : Z) : R * R :=
  let '(q_ext, q_sca) := acc in
  let q_ext := q_ext + c * 2 * np.real (compute_a nu m alpha) in
  let q_sca := q_sca + c * 2 * np.abs (compute_a nu m alpha) ^ 2 in
  (q_ext, q_sca).

Definition calculate_analytical_efficiencies
    (eps : C) (n_bkg wl0 radius_wire : R) (num_n : Z) : result (R * R * R) :=
  let m := (np.sqrt (np.conj eps) / RtoC n_bkg)%C in
  t <- py_truediv (2 * np.pi * radius_wire) wl0 ;;
  let alpha := t * n_bkg in
  c <- py_truediv 2 alpha ;;
  let q_ext := c * np.real (compute_a 0 m alpha) in
  let q_sca := c * np.abs (compute_a 0 m alpha) ^ 2 in
  let '(q_ext, q_sca) :=
    fold_left (efficiencies_step c m alpha) (range 1 (num_n + 1))
      (q_ext, q_sca) in
  Ret (q_ext - q_sca, q_sca, q_ext).

End Mie.

(** The default of the keyword argument [num_n]. *)
Definition num_n_default : Z := 50.

(* ------------------------------------------------------------------ *)
(** ** analytical_modes.py *)
(* ------------------------------------------------------------------ *)

Definition TMx_condition (kx_d kx_v eps_d eps_v : C) (d h : R) : C :=
  (kx_d / eps_d * np.tan (kx_d * RtoC d)
   + kx_v / eps_v * np.tan (kx_v * RtoC (h - d)))%C.

Definition TEx_condition (kx_d kx_v : C) (d h : R) : C :=
  (kx_d / np.tan (kx_d * RtoC d) + kx_v / np.tan (kx_v * RtoC (h - d)))%C.

(** The lines of [verify_mode] between [ky] and the two residuals:
    [kx_d_target], [alpha], [beta], [kx_v], [kx_d]. *)
Definition verify_mode_wavenumbers (kz : C) (k0 ky : R) (eps_d eps_v : C)
    : C * C :=
  let kx_d_target :=
    np.sqrt (RtoC (k0 ^ 2) * eps_d - RtoC (ky ^ 2) + - Csqr kz + C0j)%C in
  let alpha := Csqr kx_d_target in
  let beta := (alpha - RtoC (k0 ^ 2) * (eps_d - eps_v))%C in
  let kx_v := np.sqrt beta in
  let kx_d := np.sqrt alpha in
  (kx_d, kx_v).

Definition verify_mode (kz : C) (w h d lmbd0 : R) (eps_d eps_v : C)
    (threshold : R) : result bool :=
  k0 <- py_truediv (2 * np.pi) lmbd0 ;;
  let n := 1 in
  ky <- py_truediv (n * np.pi) w ;;
  let '(kx_d, kx_v) := verify_mode_wavenumbers kz k0 ky eps_d eps_v in
  let f_tm := TMx_condition kx_d kx_v eps_d eps_v d h in
  let f_te := TEx_condition kx_d kx_v d h in
  Ret (np.isclose f_tm C0j threshold || np.isclose f_te C0j threshold).

(* ------------------------------------------------------------------ *)
(** ** The Mie series as the specification writes it *)
(* ------------------------------------------------------------------ *)

(** [sum_{nu=1}^{n} f nu], over the reals and over the complex numbers. *)
Fixpoint Rsum_1_to (f : Z -> R) (n : nat) : R :=
  match n with
  | O => 0
  | S k => Rsum_1_to f k + f (Z.of_nat (S k))
  end.

Fixpoint Csum_1_to (f : Z -> C) (n : nat) : C :=
  match n with
  | O => C0j
  | S k => (Csum_1_to f k + f (Z.of_nat (S k)))%C
  end.

(** [m = sqrt(conj(eps)) / n_bkg]. *)
Definition relative_index_spec (eps : C) (n_bkg : R) : C :=
  (csqrt (Cconj eps) / RtoC n_bkg)%C.

(** [alpha = 2 pi radius n_bkg / wl0]. *)
Definition size_parameter_spec (radius_wire n_bkg wl0 : R) : R :=
  2 * PI * radius_wire * n_bkg / wl0.

(** [q_ext = (2/alpha) Re(a_0 + 2 sum_{nu=1}^{max_order} a_nu)]. *)
Definition q_ext_spec (a : Z -> C) (alpha : R) (max_order : Z) : R :=
  2 / alpha * Cre (a 0%Z + RtoC 2 * Csum_1_to a (Z.to_nat max_order))%C.

(** [q_sca = (2/alpha) (|a_0|^2 + 2 sum_{nu=1}^{max_order} |a_nu|^2)]. *)
Definition q_sca_spec (a : Z -> C) (alpha : R) (max_order : Z) : R :=
  2 / alpha *
  (Cmod (a 0%Z) ^ 2
   + 2 * Rsum_1_to (fun nu => Cmod (a nu) ^ 2) (Z.to_nat max_order)).

(** The notebook's table of names: [jv(nu, x)] is [J_nu(x)], [jvp(nu, x, 1)]
    is [J'_nu(x)], [hankel2(nu, x)] is [H2_nu(x)] and [h2vp(nu, x, 1)] is
    [H2'_nu(x)]; a real argument selects the real loop of [jv]. *)
Definition J_real (sp : special) (nu : Z) (x : R) : C := RtoC (jv_d sp nu x).
Definition J'_real (sp : special) (nu : Z) (x : R) : C :=
  RtoC (jvp_d sp nu x 1).
Definition J_cplx (sp : special) (nu : Z) (z : C) : C := jv_D sp nu z.
Definition J'_cplx (sp : special) (nu : Z) (z : C) : C := jvp_D sp nu z 1.
Definition H2 (sp : special) (nu : Z) (x : R) : C := hankel2 sp nu (RtoC x).
Definition H2' (sp : special) (nu : Z) (x : R) : C := h2vp sp nu (RtoC x) 1.

Definition mie_numerator (sp : special) (nu : Z) (m : C) (alpha : R) : C :=
  (J_real sp nu alpha * J'_cplx sp nu (m * RtoC alpha)
   - m * J_cplx sp nu (m * RtoC alpha) * J'_real sp nu alpha)%C.

Definition mie_denominator (sp : special) (nu : Z) (m : C) (alpha : R) : C :=
  (H2 sp nu alpha * J'_cplx sp nu (m * RtoC alpha)
   - m * J_cplx sp nu (m * RtoC alpha) * H2' sp nu alpha)%C.

(** The value [calculate_analytical_efficiencies] returns once both Python
    divisions have succeeded. *)
Definition efficiencies_value (sp : special) (eps : C)
    (n_bkg wl0 radius_wire : R) (num_n : Z) : R * R * R :=
  let m := (np.sqrt (np.conj eps) / RtoC n_bkg)%C in
  let alpha := 2 * np.pi * radius_wire / wl0 * n_bkg in
  let c := 2 / alpha in
  let '(q_ext, q_sca) :=
    fold_left (efficiencies_step sp c m alpha) (range 1 (num_n + 1))
      (c * np.real (compute_a sp 0 m alpha),
       c * np.abs (compute_a sp 0 m alpha) ^ 2) in
  (q_ext - q_sca, q_sca, q_ext).


(* ------------------------------------------------------------------ *)
(** ** Concrete inputs *)
(* ------------------------------------------------------------------ *)

(** The reference case of the wire demo: gold at 0.4 um. *)
Definition eps_au : C := (- (10782 / 10000), 58089 / 10000).
Definition ref_n_bkg : R := 1.
Definition ref_wl0 : R := 4 / 10.
Definition ref_radius_wire : R := 5 / 100.

(** The geometry of the waveguide demo: [w = 1], [h = 0.45 w],
    [d = 0.5 h], [lmbd0 = h / 0.2], [eps_d = 2.45], [eps_v = 1]. *)
Definition ref_w : R := 1.
Definition ref_h : R := 45 / 100.
Definition ref_d : R := 225 / 1000.
Definition ref_lmbd0 : R := 225 / 100.
Definition ref_eps_d : C := RtoC (245 / 100).
Definition ref_eps_v : C := RtoC 1.

(** A concrete special-function library to run the kernels on.  Its values
    are simple stand-ins, not Bessel functions: the statements below hold
    for every library, and this one only instantiates them. *)
Definition special_sample : special := {|
  jv_d := fun _ _ => 1;
  jv_D := fun _ _ => C_one;
  jvp_d := fun _ x _ => - x / 2;
  jvp_D := fun _ z _ => (- z / RtoC 2)%C;
  hankel2 := fun _ _ => (1, -1);
  h2vp := fun _ _ _ => (0, 1)
|}.

(** The value [verify_mode] returns once both Python divisions have
    succeeded. *)
Definition verify_mode_value (kz : C) (w h d lmbd0 : R) (eps_d eps_v : C)
    (threshold : R) : bool :=
  let k0 := 2 * np.pi / lmbd0 in
  let ky := 1 * np.pi / w in
  let '(kx_d, kx_v) := verify_mode_wavenumbers kz k0 ky eps_d eps_v in
  np.isclose (TMx_condition kx_d kx_v eps_d eps_v d h) C0j threshold
  || np.isclose (TEx_condition kx_d kx_v d h) C0j threshold.

(* ------------------------------------------------------------------ *)
(** ** The demos around the kernels *)
(* ------------------------------------------------------------------ *)

(** The literal [1j] and [np.exp] on a complex scalar. *)
Definition Ci : C := (0, 1).

Definition cexp (z : C) : C :=
  (exp (fst z) * cos (snd z), exp (fst z) * sin (snd z)).

(** The coordinate array handed to an interpolated function has shape
    [(3, N)]; it is kept as the list of its [N] columns, so that [x[0]] and
    [x[1]] are the first two components of every column and an elementwise
    operation is a [map]. *)
Definition point : Type := (R * R * R)%type.
Definition x_0 (p : point) : R := fst (fst p).
Definition x_1 (p : point) : R := snd (fst p).

(** [background_field] of the PML demo. *)
Definition background_field (theta n_b : R) (k0 : C) (x : list point)
    : list C * list C :=
  let kx := (RtoC n_b * k0 * RtoC (cos theta))%C in
  let ky := (RtoC n_b * k0 * RtoC (sin theta))%C in
  let phi := map (fun p => (kx * RtoC (x_0 p) + ky * RtoC (x_1 p))%C) x in
  (map (fun ph => (RtoC (- sin theta) * cexp (Ci * ph))%C) phi,
   map (fun ph => (RtoC (cos theta) * cexp (Ci * ph))%C) phi).

(** A point moved by [t] along the wave front of angle [theta]. *)
Definition along_wave_front (theta t : R) (p : point) : point :=
  (x_0 p - t * sin theta, x_1 p + t * cos theta, snd p).

(** The class [BackgroundElectricField] of the scattering-boundary demo:
    [__init__] stores its three arguments, [eval] reads them back. *)
Module BackgroundElectricField.

Record t : Type := {
  self_theta : R;
  self_k0 : C;
  self_n_b : R
}.

Definition init (theta n_b : R) (k0 : C) : t :=
  {| self_theta := theta; self_k0 := k0; self_n_b := n_b |}.

Definition eval (self : t) (x : list point) : list C * list C :=
  let kx := (RtoC (self_n_b self) * self_k0 self
             * RtoC (cos (self_theta self)))%C in
  let ky := (RtoC (self_n_b self) * self_k0 self
             * RtoC (sin (self_theta self)))%C in
  let phi := map (fun p => (kx * RtoC (x_0 p) + ky * RtoC (x_1 p))%C) x in
  let ax := sin (self_theta self) in
  let ay := cos (self_theta self) in
  (map (fun ph => (RtoC (- ax) * cexp (Ci * ph))%C) phi,
   map (fun ph => (RtoC ay * cexp (Ci * ph))%C) phi).

End BackgroundElectricField.

(** [radial_distance]: the value of [ufl.sqrt(x[0]**2 + x[1]**2)] at a
    point. *)
Definition radial_distance (p : point) : R :=
  sqrt (x_0 p ^ 2 + x_1 p ^ 2).

(** Exceptions of the demo scripts: the builtin ones of the kernels, the
    failure of an [assert], and the error UFL raises when an expression
    cannot be built. *)
Inductive py_exn : Type :=
| Builtin (e : exn)
| AssertionError
| UFLException.

Inductive outcome (A : Type) : Type :=
| Value (a : A)
| Raised (e : py_exn).
Arguments Value {A} a.
Arguments Raised {A} e.

Definition C_eq_dec (z w : C) : {z = w} + {z <> w}.
Proof.
  destruct z as [a b], w as [c d].
  destruct (Req_dec_T a c) as [-> | Hac].
  - destruct (Req_dec_T b d) as [-> | Hbd].
    + left. reflexivity.
    + right. intros E. apply Hbd. injection E. auto.
  - right. intros E. apply Hac. injection E. auto.
Defined.

(** [pml_coordinates]: the value at the coordinate [x] of the UFL expression
    the function builds.  [1j * alpha / k0] is a division between Python
    numbers and raises on [k0 = 0]; the last division is UFL's, which
    refuses the constant zero as a divisor. *)
Definition pml_coordinates (x alpha : R) (k0 : C) (l_dom l_pml : R)
    : outcome C :=
  if C_eq_dec k0 C0j then Raised (Builtin ZeroDivisionError)
  else
    let factor := (Ci * RtoC alpha / k0)%C in
    let den := (l_pml / 2 - l_dom / 2) ^ 2 in
    if Req_dec_T den 0 then Raised UFLException
    else
      Value (RtoC x
             + factor * RtoC x * RtoC (Rabs x - l_dom / 2) / RtoC den)%C.

(** The transformation as the demo documents it:
    [x' = x (1 + j (alpha / k0) (|x| - l_dom/2) / (l_pml/2 - l_dom/2)^2)]. *)
Definition pml_coordinates_doc (x alpha : R) (k0 : C) (l_dom l_pml : R) : C :=
  (RtoC x
   * (C_one
      + Ci * (RtoC alpha / k0)
        * (RtoC (Rabs x - l_dom / 2) / RtoC ((l_pml / 2 - l_dom / 2) ^ 2))))%C.

(** 3x3 complex matrices, by rows, with the UFL operations that
    [create_eps_mu] applies to them. *)
Module ufl.

Definition vec3 : Type := (C * C * C)%type.
Definition mat3 : Type := (vec3 * vec3 * vec3)%type.

Definition row0 (m : mat3) : vec3 := fst (fst m).
Definition row1 (m : mat3) : vec3 := snd (fst m).
Definition row2 (m : mat3) : vec3 := snd m.
Definition c0 (v : vec3) : C := fst (fst v).
Definition c1 (v : vec3) : C := snd (fst v).
Definition c2 (v : vec3) : C := snd v.

Definition diag3 (a b c : C) : mat3 :=
  ((a, C0j, C0j), (C0j, b, C0j), (C0j, C0j, c)).

Definition vmap (f : C -> C) (v : vec3) : vec3 := (f (c0 v), f (c1 v), f (c2 v)).
Definition mmap (f : C -> C) (m : mat3) : mat3 :=
  (vmap f (row0 m), vmap f (row1 m), vmap f (row2 m)).

Definition transpose (m : mat3) : mat3 :=
  ((c0 (row0 m), c0 (row1 m), c0 (row2 m)),
   (c1 (row0 m), c1 (row1 m), c1 (row2 m)),
   (c2 (row0 m), c2 (row1 m), c2 (row2 m))).

Definition vdot (u v : vec3) : C :=
  (c0 u * c0 v + c1 u * c1 v + c2 u * c2 v)%C.

Definition mmul (a b : mat3) : mat3 :=
  let bt := transpose b in
  ((vdot (row0 a) (row0 bt), vdot (row0 a) (row1 bt), vdot (row0 a) (row2 bt)),
   (vdot (row1 a) (row0 bt), vdot (row1 a) (row1 bt), vdot (row1 a) (row2 bt)),
   (vdot (row2 a) (row0 bt), vdot (row2 a) (row1 bt), vdot (row2 a) (row2 bt))).

Definition det (m : mat3) : C :=
  let '((a, b, c), (d, e, f), (g, h, i)) := m in
  (a * (e * i - f * h) - b * (d * i - f * g) + c * (d * h - e * g))%C.

(** The adjugate; UFL's [inv] of a 3x3 matrix is the adjugate over the
    determinant. *)
Definition adj (m : mat3) : mat3 :=
  let '((a, b, c), (d, e, f), (g, h, i)) := m in
  (((e * i - f * h)%C, (c * h - b * i)%C, (b * f - c * e)%C),
   ((f * g - d * i)%C, (a * i - c * g)%C, (c * d - a * f)%C),
   ((d * h - e * g)%C, (b * g - a * h)%C, (a * e - b * d)%C)).

Definition inv (m : mat3) : mat3 := mmap (fun z => (z / det m)%C) (adj m).

End ufl.

(** [create_eps_mu], at a point: [gradJ] holds the values of [grad(pml)], of
    which the function keeps the two diagonal entries. *)
Definition create_eps_mu (gradJ : (C * C) * (C * C)) (eps_bkg mu_bkg : C)
    : ufl.mat3 * ufl.mat3 :=
  let J00 := fst (fst gradJ) in
  let J11 := snd (snd gradJ) in
  let J := ((J00, C0j, C0j), (C0j, J11, C0j), (C0j, C0j, C_one)) in
  let A := ufl.inv J in
  let eps_pml :=
    ufl.mmul
      (ufl.mmap (fun z => (z * eps_bkg)%C)
         (ufl.mmap (fun z => (ufl.det J * z)%C) A))
      (ufl.transpose A) in
  let mu_pml :=
    ufl.mmul
      (ufl.mmap (fun z => (z * mu_bkg)%C)
         (ufl.mmap (fun z => (ufl.det J * z)%C) A))
      (ufl.transpose A) in
  (eps_pml, mu_pml).

(** [Omega_d] and [Omega_v] of the waveguide demo; [d] is the global the
    two closures read. *)
Definition Omega_d (d : R) (x : list point) : list bool :=
  map (fun p => if Rle_dec (x_1 p) d then true else false) x.

Definition Omega_v (d : R) (x : list point) : list bool :=
  map (fun p => if Rge_dec (x_1 p) d then true else false) x.

(** The comparison of the analytical with the numerical efficiencies that
    closes both wire demos. *)
Definition py_assert (b : bool) : outcome unit :=
  if b then Value tt else Raised AssertionError.

(** [np.abs(analyt - fenics) / analyt]: a numpy division, silent on a zero
    reference, where the model's value has no counterpart. *)
Definition relative_error (analyt fenics : R) : R :=
  Rabs (analyt - fenics) / analyt.

Definition check_efficiencies
    (q_abs_analyt q_sca_analyt q_ext_analyt q_abs_fenics q_sca_fenics : R)
    : outcome unit :=
  let q_ext_fenics := q_abs_fenics + q_sca_fenics in
  let err_abs := relative_error q_abs_analyt q_abs_fenics in
  let err_sca := relative_error q_sca_analyt q_sca_fenics in
  let err_ext := relative_error q_ext_analyt q_ext_fenics in
  match py_assert (if Rlt_dec err_abs (1 / 100) then true else false) with
  | Raised e => Raised e
  | Value _ =>
    match py_assert (if Rlt_dec err_sca (1 / 100) then true else false) with
    | Raised e => Raised e
    | Value _ =>
      py_assert (if Rlt_dec err_ext (1 / 100) then true else false)
    end
  end.

(** A second concrete library, for which every Mie coefficient is [1/2]. *)
Definition special_half : special := {|
  jv_d := fun _ _ => 1;
  jv_D := fun _ _ => C0j;
  jvp_d := fun _ _ _ => 0;
  jvp_D := fun _ _ _ => C_one;
  hankel2 := fun _ _ => RtoC 2;
  h2vp := fun _ _ _ => C0j
|}.

(** The post-processing of the waveguide demo.  The eigensolver is outside
    the repository: [getEigenvalue], [computeError] and the number [nconv]
    of converged pairs are what it hands back. *)
Section Postprocessing.

Variable getEigenvalue : Z -> C.
Variable computeError : Z -> R.
Variable nconv : Z.
Variable tol : R.
Variables w h d lmbd0 : R.
Variables eps_d eps_v : C.

(** [vals = [(i, np.sqrt(-eps.getEigenvalue(i))) for i in range(nconv)]]. *)
Definition eigen_vals : list (Z * C) :=
  map (fun i => (i, np.sqrt (- getEigenvalue i)%C)) (range 0 nconv).

(** [vals.sort(key=lambda x: x[1].real)]: Python's sort is stable, which an
    insertion sort that keeps equal keys in their order reproduces. *)
Fixpoint insert_by_real (v : Z * C) (l : list (Z * C)) : list (Z * C) :=
  match l with
  | [] => [v]
  | u :: l' =>
    if Rle_dec (Cre (snd v)) (Cre (snd u)) then v :: u :: l'
    else u :: insert_by_real v l'
  end.

Definition sort_by_real (l : list (Z * C)) : list (Z * C) :=
  fold_right insert_by_real [] l.


(** [np.isclose(a, 0, atol=tol)] on a real scalar. *)
Definition isclose_real_0 (a atol : R) : bool :=
  if Rle_dec (Rabs (a - 0)) (atol + np.rtol * Rabs 0) then true else false.

(** [error < tol and np.isclose(kz.imag, 0, atol=tol)]. *)
Definition mode_accepted (i : Z) (kz : C) : bool :=
  (if Rlt_dec (computeError i) tol then true else false)
  && isclose_real_0 (Cim kz) tol.

(** The loop [for i, kz in vals], as far as [kz_list] and the assertion go;
    the eigenvector handling and the output files do not act on either. *)
Fixpoint verify_loop (vals : list (Z * C)) (kz_list : list C)
    : outcome (list C) :=
  match vals with
  | [] => Value kz_list
  | (i, kz) :: rest =>
    if mode_accepted i kz then
      let kz_list := kz_list ++ [kz] in
      match verify_mode kz w h d lmbd0 eps_d eps_v (1 / 10000) with
      | Raise e => Raised (Builtin e)
      | Ret false => Raised AssertionError
      | Ret true => verify_loop rest kz_list
      end
    else verify_loop rest kz_list
  end.

Definition collect_modes : outcome (list C) :=
  verify_loop (sort_by_real eigen_vals) [].

End Postprocessing.

(** A run of the post-processing on one converged eigenvalue, [-3 pi^2],
    which for [w = lmbd0 = 1] and [eps_d = eps_v = 1] belongs to the
    propagation constant [sqrt(3) pi]. *)
Definition run_eigenvalue (i : Z) : C := RtoC (- (3 * PI ^ 2)).
Definition run_error (i : Z) : R := 0.
Definition run_tol : R := 1 / 1000000000.
Definition run_kz : C := np.sqrt (- run_eigenvalue 0)%C.

(* ------------------------------------------------------------------ *)
(** ** Algebra of the complex model *)
(* ------------------------------------------------------------------ *)

Ltac cx_unfold :=
  unfold np.sqrt, np.conj, np.tan, np.real, np.abs, np.pi,
    Cdiv, Csqr, Csub, Cmul, Cadd, Copp, Cinv, Cconj, Cnorm2, RtoC, Cre, Cim,
    C0j, C_one in *;
  simpl fst in *; simpl snd in *.

(** Componentwise equality of complex numbers by field arithmetic. *)
Ltac cx_eq := cx_unfold; f_equal; try ring; try (field; auto).

Lemma Cnorm2_nonneg (z : C) : 0 <= Cnorm2 z.
Proof. unfold Cnorm2. nra. Qed.

Lemma Cnorm2_eq_0 (z : C) : Cnorm2 z = 0 -> z = C0j.
Proof.
  destruct z as [a b]. unfold Cnorm2, C0j. simpl. intros H.
  assert (a = 0) by nra. assert (b = 0) by nra. subst. reflexivity.
Qed.

Lemma Cnorm2_neq_0 (z : C) : z <> C0j -> Cnorm2 z <> 0.
Proof. intros H E. apply H, Cnorm2_eq_0, E. Qed.

Lemma Cmod_nonneg (z : C) : 0 <= Cmod z.
Proof. apply sqrt_pos. Qed.

Lemma Cmod_sqr (z : C) : Cmod z * Cmod z = Cnorm2 z.
Proof. apply sqrt_sqrt, Cnorm2_nonneg. Qed.

Lemma Cmod_pow2 (z : C) : Cmod z ^ 2 = Cnorm2 z.
Proof. simpl. rewrite Rmult_1_r. apply Cmod_sqr. Qed.

Lemma Cmod_0 : Cmod C0j = 0.
Proof.
  unfold Cmod, Cnorm2, C0j. simpl.
  replace (0 * 0 + 0 * 0) with 0 by ring. apply sqrt_0.
Qed.

Lemma Cmod_ge_re (z : C) : Rabs (fst z) <= Cmod z.
Proof.
  rewrite <- sqrt_Rsqr_abs. apply sqrt_le_1_alt.
  unfold Cnorm2, Rsqr. nra.
Qed.

Lemma Csub_0_r (z : C) : (z - C0j)%C = z.
Proof. destruct z. cx_eq. Qed.

Lemma Cadd_0_r (z : C) : (z + C0j)%C = z.
Proof. destruct z. cx_eq. Qed.

Lemma Cmul_inv_r (z : C) : z <> C0j -> (z * Cinv z)%C = C_one.
Proof.
  intros H. apply Cnorm2_neq_0 in H. destruct z as [a b].
  unfold Cnorm2 in H. simpl in H. cx_eq.
Qed.

Lemma Cmul_eq_0 (z w : C) : (z * w)%C = C0j -> z = C0j \/ w = C0j.
Proof.
  intros H.
  assert (E : Cnorm2 (z * w)%C = Cnorm2 z * Cnorm2 w)
    by (unfold Cnorm2, Cmul; simpl; ring).
  rewrite H in E. unfold Cnorm2 at 1 in E. simpl in E.
  assert (E' : Cnorm2 z * Cnorm2 w = 0) by lra.
  apply Rmult_integral in E'. destruct E' as [E' | E'].
  - left. apply Cnorm2_eq_0, E'.
  - right. apply Cnorm2_eq_0, E'.
Qed.

Lemma Cinv_neq_0 (z : C) : z <> C0j -> Cinv z <> C0j.
Proof.
  intros H E. pose proof (Cmul_inv_r z H) as M. rewrite E in M.
  unfold Cmul, C0j, C_one in M. simpl in M. inversion M. lra.
Qed.

(** Dividing by a quotient multiplies by the reciprocal quotient. *)
Lemma Cdiv_div (a s c : C) :
  s <> C0j -> c <> C0j -> (a / (s / c))%C = (a * (c / s))%C.
Proof.
  intros Hs Hc. apply Cnorm2_neq_0 in Hs. apply Cnorm2_neq_0 in Hc.
  destruct a as [a1 a2], s as [s1 s2], c as [c1 c2].
  unfold Cnorm2 in Hs, Hc. simpl in Hs, Hc.
  cx_unfold. f_equal; field; repeat split; auto; nra.
Qed.

(** The principal square root squares back to its argument... *)
Lemma sgn_im_abs (y : R) : sgn_im y * Rabs y = y.
Proof.
  unfold sgn_im. destruct (Rlt_dec y 0) as [H | H].
  - rewrite Rabs_left by assumption. ring.
  - rewrite Rabs_right by lra. ring.
Qed.

Lemma csqrt_sqr (z : C) : Csqr (csqrt z) = z.
Proof.
  destruct z as [a b]. unfold csqrt. simpl fst. simpl snd.
  set (r := Cmod (a, b)).
  assert (Hr : 0 <= r) by apply Cmod_nonneg.
  assert (Hrr : r * r = a * a + b * b) by apply (Cmod_sqr (a, b)).
  assert (Ha : Rabs a <= r) by apply (Cmod_ge_re (a, b)).
  assert (Hp : 0 <= (r + a) / 2)
    by (unfold Rabs in Ha; destruct (Rcase_abs a); lra).
  assert (Hq : 0 <= (r - a) / 2)
    by (unfold Rabs in Ha; destruct (Rcase_abs a); lra).
  set (p := sqrt ((r + a) / 2)). set (q := sqrt ((r - a) / 2)).
  assert (Ep : p * p = (r + a) / 2) by (apply sqrt_sqrt; assumption).
  assert (Eq : q * q = (r - a) / 2) by (apply sqrt_sqrt; assumption).
  assert (Epq : p * q = Rabs b / 2).
  { unfold p, q. rewrite <- sqrt_mult by assumption.
    replace ((r + a) / 2 * ((r - a) / 2)) with ((r * r - a * a) / 4)
      by field.
    rewrite Hrr.
    replace ((a * a + b * b - a * a) / 4) with (Rsqr (b / 2))
      by (unfold Rsqr; field).
    rewrite sqrt_Rsqr_abs. unfold Rdiv. rewrite Rabs_mult.
    f_equal. apply Rabs_right. lra. }
  assert (Ess : sgn_im b * sgn_im b = 1)
    by (unfold sgn_im; destruct (Rlt_dec b 0); ring).
  unfold Csqr, Cmul. simpl fst. simpl snd. f_equal.
  - replace (p * p - sgn_im b * q * (sgn_im b * q))
      with (p * p - (sgn_im b * sgn_im b) * (q * q)) by ring.
    rewrite Ess, Ep, Eq. lra.
  - replace (p * (sgn_im b * q) + sgn_im b * q * p)
      with (2 * (sgn_im b * (p * q))) by ring.
    rewrite Epq. transitivity (sgn_im b * Rabs b).
    + field.
    + apply sgn_im_abs.
Qed.

(** ... and lies in the closed right half plane. *)
Lemma csqrt_re_nonneg (z : C) : 0 <= Cre (csqrt z).
Proof. unfold csqrt, Cre. simpl. apply sqrt_pos. Qed.

(* ------------------------------------------------------------------ *)
(** ** Sanity of the numpy model *)
(* ------------------------------------------------------------------ *)

Lemma cosh2_minus_sinh2 (y : R) : cosh y * cosh y - sinh y * sinh y = 1.
Proof.
  unfold cosh, sinh.
  assert (E : exp y * exp (- y) = 1)
    by (rewrite <- exp_plus, Rplus_opp_r; apply exp_0).
  replace ((exp y + exp (- y)) / 2 * ((exp y + exp (- y)) / 2)
           - (exp y - exp (- y)) / 2 * ((exp y - exp (- y)) / 2))
    with (exp y * exp (- y)) by field.
  exact E.
Qed.

(** [sin^2 + cos^2 = 1] on the complex plane. *)
Lemma csin2_plus_ccos2 (z : C) : (Csqr (csin z) + Csqr (ccos z))%C = C_one.
Proof.
  destruct z as [x y]. unfold csin, ccos. cx_unfold.
  pose proof (sin2_cos2 x) as Ht. unfold Rsqr in Ht.
  pose proof (cosh2_minus_sinh2 y) as Hh.
  f_equal.
  - replace (sin x * cosh y * (sin x * cosh y)
             - cos x * sinh y * (cos x * sinh y)
             + (cos x * cosh y * (cos x * cosh y)
                - - (sin x * sinh y) * - (sin x * sinh y)))
      with ((sin x * sin x + cos x * cos x)
            * (cosh y * cosh y - sinh y * sinh y)) by ring.
    rewrite Ht, Hh. ring.
  - ring.
Qed.

(** [np.sqrt(-4 + 0j)] is [2j]: the branch cut is approached from above. *)
Example csqrt_minus_4 : np.sqrt (- 4, 0) = (0, 2).
Proof.
  unfold np.sqrt, csqrt, Cmod, Cnorm2, sgn_im. simpl.
  replace (- 4 * - 4 + 0 * 0) with (4 * 4) by ring.
  rewrite sqrt_square by lra.
  replace ((4 + - 4) / 2) with 0 by field.
  replace ((4 - - 4) / 2) with (2 * 2) by field.
  rewrite sqrt_0, sqrt_square by lra.
  destruct (Rlt_dec 0 0); [lra | f_equal; ring].
Qed.

(** [range(1, 4)] is [1, 2, 3]; [range(1, 0)] is empty. *)
Example range_1_4 : range 1 4 = [1; 2; 3]%Z.
Proof. reflexivity. Qed.

Example range_1_0 : range 1 0 = [].
Proof. reflexivity. Qed.

(* ------------------------------------------------------------------ *)
(** ** The Python layer: basic facts *)
(* ------------------------------------------------------------------ *)

Lemma py_truediv_ret (x y : R) : y <> 0 -> py_truediv x y = Ret (x / y).
Proof.
  intros H. unfold py_truediv. destruct (Req_dec_T y 0); [contradiction | reflexivity].
Qed.

Lemma py_truediv_raise (x : R) : py_truediv x 0 = Raise ZeroDivisionError.
Proof.
  unfold py_truediv. destruct (Req_dec_T 0 0); [reflexivity | contradiction n; reflexivity].
Qed.

Lemma py_truediv_cases (x y : R) :
  (y = 0 /\ py_truediv x y = Raise ZeroDivisionError) \/
  (y <> 0 /\ py_truediv x y = Ret (x / y)).
Proof.
  destruct (Req_dec_T y 0) as [E | N].
  - left. subst. split; [reflexivity | apply py_truediv_raise].
  - right. split; [assumption | apply py_truediv_ret, N].
Qed.

Lemma range_nil (lo hi : Z) : (hi <= lo)%Z -> range lo hi = [].
Proof.
  intros H. unfold range. replace (Z.to_nat (hi - lo)) with 0%nat by lia.
  reflexivity.
Qed.

Lemma range_snoc (lo hi : Z) :
  (lo <= hi)%Z -> range lo (hi + 1) = range lo hi ++ [hi].
Proof.
  intros H. unfold range.
  replace (Z.to_nat (hi + 1 - lo)) with (S (Z.to_nat (hi - lo))) by lia.
  rewrite seq_S, map_app. simpl. do 2 f_equal. lia.
Qed.

Lemma range_length (lo hi : Z) : length (range lo hi) = Z.to_nat (hi - lo).
Proof. unfold range. rewrite length_map, length_seq. reflexivity. Qed.

Lemma in_range (lo hi nu : Z) : In nu (range lo hi) <-> (lo <= nu < hi)%Z.
Proof.
  unfold range. rewrite in_map_iff. split.
  - intros [i [E Hi]]. apply in_seq in Hi. lia.
  - intros H. exists (Z.to_nat (nu - lo)). split; [lia | apply in_seq; lia].
Qed.

Lemma Cre_Csum_1_to (f : Z -> C) (n : nat) :
  Cre (Csum_1_to f n) = Rsum_1_to (fun nu => Cre (f nu)) n.
Proof.
  induction n as [| k IH]; simpl.
  - reflexivity.
  - rewrite <- IH. reflexivity.
Qed.

Section MieFacts.

Variable sp : special.

(** The loop adds, to each accumulator, [2 c] times the partial sum. *)
Lemma efficiencies_loop (c : R) (m : C) (alpha : R) (n : nat) (e0 s0 : R) :
  fold_left (efficiencies_step sp c m alpha) (range 1 (Z.of_nat n + 1))
    (e0, s0)
  = (e0 + c * 2 * Rsum_1_to (fun nu => Cre (compute_a sp nu m alpha)) n,
     s0 + c * 2 * Rsum_1_to (fun nu => Cmod (compute_a sp nu m alpha) ^ 2) n).
Proof.
  induction n as [| k IH].
  - simpl. f_equal; ring.
  - replace (Z.of_nat (S k) + 1)%Z with ((Z.of_nat k + 1) + 1)%Z by lia.
    rewrite range_snoc by lia. rewrite fold_left_app, IH.
    cbn [fold_left efficiencies_step Rsum_1_to].
    replace (Z.of_nat k + 1)%Z with (Z.of_nat (S k)) by lia.
    unfold np.real, np.abs. f_equal; ring.
Qed.

Lemma calculate_analytical_efficiencies_cases
    (eps : C) (n_bkg wl0 radius_wire : R) (num_n : Z) :
  let alpha := 2 * np.pi * radius_wire / wl0 * n_bkg in
  ((wl0 = 0 \/ alpha = 0) /\
   calculate_analytical_efficiencies sp eps n_bkg wl0 radius_wire num_n
   = Raise ZeroDivisionError)
  \/
  (wl0 <> 0 /\ alpha <> 0 /\
   calculate_analytical_efficiencies sp eps n_bkg wl0 radius_wire num_n
   = Ret (efficiencies_value sp eps n_bkg wl0 radius_wire num_n)).
Proof.
  intros alpha. unfold calculate_analytical_efficiencies.
  destruct (py_truediv_cases (2 * np.pi * radius_wire) wl0) as [[E1 ->] | [N1 ->]].
  - left. split; [left; assumption | reflexivity].
  - cbn [bind]. fold alpha.
    destruct (py_truediv_cases 2 alpha) as [[E2 ->] | [N2 ->]].
    + left. split; [right; assumption | reflexivity].
    + right. split; [assumption |]. split; [assumption |].
      cbn [bind]. unfold efficiencies_value. fold alpha.
      destruct (fold_left _ _ _) as [q_ext q_sca]. reflexivity.
Qed.

Lemma size_parameter_code (n_bkg wl0 radius_wire : R) :
  2 * np.pi * radius_wire / wl0 * n_bkg
  = size_parameter_spec radius_wire n_bkg wl0.
Proof. unfold size_parameter_spec, np.pi, Rdiv. ring. Qed.

Lemma size_parameter_neq_0 (n_bkg wl0 radius_wire : R) :
  n_bkg <> 0 -> wl0 <> 0 -> radius_wire <> 0 ->
  size_parameter_spec radius_wire n_bkg wl0 <> 0.
Proof.
  intros Hn Hw Hr E. unfold size_parameter_spec, Rdiv in E.
  pose proof PI_RGT_0 as Hpi.
  apply Rmult_integral in E as [E | E];
    [| apply Rinv_neq_0_compat in Hw; contradiction].
  apply Rmult_integral in E as [E | E]; [| contradiction].
  apply Rmult_integral in E as [E | E]; [| contradiction].
  lra.
Qed.

End MieFacts.

(* ------------------------------------------------------------------ *)
(** ** The Mie efficiency calculator *)
(* ------------------------------------------------------------------ *)

Lemma Cre_a0_plus_2_sum (a0 s : C) :
  Cre (a0 + RtoC 2 * s)%C = Cre a0 + 2 * Cre s.
Proof. destruct a0, s. cx_unfold. ring. Qed.

Lemma Cdiv_mul_cancel (n d : C) : d <> C0j -> (n / d * d)%C = n.
Proof.
  intros H. apply Cnorm2_neq_0 in H. destruct n as [n1 n2], d as [d1 d2].
  unfold Cnorm2 in H. simpl in H. cx_eq.
Qed.

(** C1: for a positive background index, a truncation order [max_order >= 0]
    and a non-zero wavelength and radius (the data model has both positive),
    [calculate_analytical_efficiencies] returns
    [(q_ext - q_sca, q_sca, q_ext)], where, with
    [m = sqrt(conj(eps)) / n_bkg] and [alpha = 2 pi radius n_bkg / wl0],
    [q_ext = (2/alpha) Re(a_0 + 2 sum_{nu=1}^{max_order} a_nu)] and
    [q_sca = (2/alpha) (|a_0|^2 + 2 sum_{nu=1}^{max_order} |a_nu|^2)]. *)
Theorem calculate_analytical_efficiencies_spec
    (sp : special) (eps : C) (n_bkg wl0 radius_wire : R) (max_order : Z) :
  0 < n_bkg -> (0 <= max_order)%Z -> wl0 <> 0 -> radius_wire <> 0 ->
  let m := relative_index_spec eps n_bkg in
  let alpha := size_parameter_spec radius_wire n_bkg wl0 in
  let a := fun nu => compute_a sp nu m alpha in
  let q_ext := q_ext_spec a alpha max_order in
  let q_sca := q_sca_spec a alpha max_order in
  calculate_analytical_efficiencies sp eps n_bkg wl0 radius_wire max_order
  = Ret (q_ext - q_sca, q_sca, q_ext).
Proof.
  intros Hn HN Hw Hr m alpha a q_ext q_sca.
  assert (Ha : alpha <> 0)
    by (apply size_parameter_neq_0; [lra | assumption | assumption]).
  destruct (calculate_analytical_efficiencies_cases sp eps n_bkg wl0
              radius_wire max_order) as [[[E | E] _] | [_ [_ ->]]].
  - contradiction.
  - rewrite size_parameter_code in E. contradiction.
  - f_equal. unfold efficiencies_value.
    rewrite size_parameter_code. fold alpha.
    change (np.sqrt (np.conj eps) / RtoC n_bkg)%C with m.
    rewrite <- (Z2Nat.id max_order) at 1 by assumption.
    rewrite efficiencies_loop.
    assert (Ee : 2 / alpha * np.real (compute_a sp 0 m alpha)
                 + 2 / alpha * 2 *
                   Rsum_1_to (fun nu => Cre (compute_a sp nu m alpha))
                     (Z.to_nat max_order) = q_ext).
    { unfold q_ext, q_ext_spec. rewrite Cre_a0_plus_2_sum, Cre_Csum_1_to.
      unfold a, np.real. ring. }
    assert (Es : 2 / alpha * np.abs (compute_a sp 0 m alpha) ^ 2
                 + 2 / alpha * 2 *
                   Rsum_1_to (fun nu => Cmod (compute_a sp nu m alpha) ^ 2)
                     (Z.to_nat max_order) = q_sca).
    { unfold q_sca, q_sca_spec, a, np.abs. ring. }
    rewrite Ee, Es. reflexivity.
Qed.

Lemma calculate_analytical_efficiencies_spec_witness :
  calculate_analytical_efficiencies special_sample eps_au ref_n_bkg ref_wl0
    ref_radius_wire num_n_default
  = Ret
      (let m := relative_index_spec eps_au ref_n_bkg in
       let alpha := size_parameter_spec ref_radius_wire ref_n_bkg ref_wl0 in
       let a := fun nu => compute_a special_sample nu m alpha in
       (q_ext_spec a alpha num_n_default - q_sca_spec a alpha num_n_default,
        q_sca_spec a alpha num_n_default,
        q_ext_spec a alpha num_n_default)).
Proof.
  apply (calculate_analytical_efficiencies_spec special_sample eps_au
           ref_n_bkg ref_wl0 ref_radius_wire num_n_default).
  - unfold ref_n_bkg. lra.
  - unfold num_n_default. lia.
  - unfold ref_wl0. lra.
  - unfold ref_radius_wire. lra.
Defined.

(** C2: [compute_a] returns the quotient
    [(J_nu(alpha) J'_nu(m alpha) - m J_nu(m alpha) J'_nu(alpha))
     / (H2_nu(alpha) J'_nu(m alpha) - m J_nu(m alpha) H2'_nu(alpha))]
    for every order, relative index and size parameter, with no case
    distinction on the denominator; where the denominator is not zero the
    result times the denominator is the numerator. *)
Theorem compute_a_formula (sp : special) (nu : Z) (m : C) (alpha : R) :
  compute_a sp nu m alpha
  = (mie_numerator sp nu m alpha / mie_denominator sp nu m alpha)%C
  /\ (mie_denominator sp nu m alpha <> C0j ->
      (compute_a sp nu m alpha * mie_denominator sp nu m alpha)%C
      = mie_numerator sp nu m alpha).
Proof.
  assert (E : compute_a sp nu m alpha
              = (mie_numerator sp nu m alpha / mie_denominator sp nu m alpha)%C)
    by reflexivity.
  split; [exact E |].
  intros Hd. rewrite E. apply Cdiv_mul_cancel, Hd.
Qed.

Lemma compute_a_formula_witness :
  mie_denominator special_sample 0 C_one 1 <> C0j /\
  (compute_a special_sample 0 C_one 1 * mie_denominator special_sample 0 C_one 1)%C
  = mie_numerator special_sample 0 C_one 1.
Proof.
  assert (Hd : mie_denominator special_sample 0 C_one 1 <> C0j).
  { unfold mie_denominator, H2, H2', J_cplx, J'_cplx, special_sample.
    cx_unfold. intros E. inversion E. lra. }
  split; [exact Hd |].
  apply (proj2 (compute_a_formula special_sample 0 C_one 1)), Hd.
Defined.

(** C6: whenever the two Python divisions have non-zero divisors, the
    returned triple [(q_abs, q_sca, q_ext)] satisfies
    [q_ext = q_abs + q_sca], for every truncation order; the reference case
    (gold, background index 1, wavelength 0.4, radius 0.05) is such an
    input, whatever the special functions and the order. *)
Theorem extinction_is_absorption_plus_scattering :
  (forall (sp : special) (eps : C) (n_bkg wl0 radius_wire : R) (num_n : Z),
      wl0 <> 0 -> size_parameter_spec radius_wire n_bkg wl0 <> 0 ->
      exists q_abs q_sca q_ext : R,
        calculate_analytical_efficiencies sp eps n_bkg wl0 radius_wire num_n
        = Ret (q_abs, q_sca, q_ext)
        /\ q_ext = q_abs + q_sca)
  /\ (forall (sp : special) (num_n : Z),
      exists q_abs q_sca q_ext : R,
        calculate_analytical_efficiencies sp eps_au ref_n_bkg ref_wl0
          ref_radius_wire num_n
        = Ret (q_abs, q_sca, q_ext)
        /\ q_ext = q_abs + q_sca).
Proof.
  assert (G : forall sp eps n_bkg wl0 radius_wire num_n,
      wl0 <> 0 -> size_parameter_spec radius_wire n_bkg wl0 <> 0 ->
      exists q_abs q_sca q_ext : R,
        calculate_analytical_efficiencies sp eps n_bkg wl0 radius_wire num_n
        = Ret (q_abs, q_sca, q_ext)
        /\ q_ext = q_abs + q_sca).
  { intros sp eps n_bkg wl0 radius_wire num_n Hw Ha.
    destruct (calculate_analytical_efficiencies_cases sp eps n_bkg wl0
                radius_wire num_n) as [[[E | E] _] | [_ [_ ->]]].
    - contradiction.
    - rewrite size_parameter_code in E. contradiction.
    - unfold efficiencies_value.
      destruct (fold_left _ _ _) as [q_ext q_sca].
      exists (q_ext - q_sca), q_sca, q_ext. split; [reflexivity | ring]. }
  split; [exact G |].
  intros sp num_n. apply G.
  - unfold ref_wl0. lra.
  - apply size_parameter_neq_0; unfold ref_n_bkg, ref_wl0, ref_radius_wire; lra.
Qed.

Lemma extinction_is_absorption_plus_scattering_witness :
  exists q_abs q_sca q_ext : R,
    calculate_analytical_efficiencies special_sample eps_au ref_n_bkg ref_wl0
      ref_radius_wire 0
    = Ret (q_abs, q_sca, q_ext)
    /\ q_ext = q_abs + q_sca.
Proof.
  apply (proj1 extinction_is_absorption_plus_scattering special_sample eps_au
           ref_n_bkg ref_wl0 ref_radius_wire 0%Z).
  - unfold ref_wl0. lra.
  - apply size_parameter_neq_0; unfold ref_n_bkg, ref_wl0, ref_radius_wire; lra.
Defined.

(** C9: with [num_n = 0] the loop ranges over [range(1, 1)], which is empty,
    and the result uses the coefficient of order zero only:
    [q_ext = (2/alpha) Re(a_0)] and [q_sca = (2/alpha) |a_0|^2]. *)
Theorem max_order_zero_uses_a0_only
    (sp : special) (eps : C) (n_bkg wl0 radius_wire : R) :
  wl0 <> 0 -> size_parameter_spec radius_wire n_bkg wl0 <> 0 ->
  let m := relative_index_spec eps n_bkg in
  let alpha := size_parameter_spec radius_wire n_bkg wl0 in
  let a_0 := compute_a sp 0 m alpha in
  let q_ext := 2 / alpha * Cre a_0 in
  let q_sca := 2 / alpha * Cmod a_0 ^ 2 in
  range 1 (0 + 1) = []
  /\ calculate_analytical_efficiencies sp eps n_bkg wl0 radius_wire 0
     = Ret (q_ext - q_sca, q_sca, q_ext).
Proof.
  intros Hw Ha m alpha a_0 q_ext q_sca.
  split; [reflexivity |].
  destruct (calculate_analytical_efficiencies_cases sp eps n_bkg wl0
              radius_wire 0) as [[[E | E] _] | [_ [_ ->]]].
  - contradiction.
  - rewrite size_parameter_code in E. contradiction.
  - unfold efficiencies_value. rewrite size_parameter_code. reflexivity.
Qed.

Lemma max_order_zero_uses_a0_only_witness :
  let m := relative_index_spec eps_au ref_n_bkg in
  let alpha := size_parameter_spec ref_radius_wire ref_n_bkg ref_wl0 in
  let a_0 := compute_a special_sample 0 m alpha in
  range 1 (0 + 1) = []
  /\ calculate_analytical_efficiencies special_sample eps_au ref_n_bkg
       ref_wl0 ref_radius_wire 0
     = Ret (2 / alpha * Cre a_0 - 2 / alpha * Cmod a_0 ^ 2,
            2 / alpha * Cmod a_0 ^ 2, 2 / alpha * Cre a_0).
Proof.
  apply (max_order_zero_uses_a0_only special_sample eps_au ref_n_bkg ref_wl0
           ref_radius_wire).
  - unfold ref_wl0. lra.
  - apply size_parameter_neq_0; unfold ref_n_bkg, ref_wl0, ref_radius_wire; lra.
Defined.

(* ------------------------------------------------------------------ *)
(** ** The waveguide dispersion checker *)
(* ------------------------------------------------------------------ *)

Lemma isclose_zero (f : C) (atol : R) :
  np.isclose f C0j atol = true <-> Cmod f <= atol.
Proof.
  unfold np.isclose, np.abs. rewrite Csub_0_r, Cmod_0.
  replace (atol + np.rtol * 0) with atol by ring.
  destruct (Rle_dec (Cmod f) atol) as [H | H]; split; intros G;
    auto; try discriminate; contradiction.
Qed.

Lemma verify_mode_cases (kz : C) (w h d lmbd0 : R) (eps_d eps_v : C)
    (threshold : R) :
  ((lmbd0 = 0 \/ w = 0) /\
   verify_mode kz w h d lmbd0 eps_d eps_v threshold
   = Raise ZeroDivisionError)
  \/
  (lmbd0 <> 0 /\ w <> 0 /\
   verify_mode kz w h d lmbd0 eps_d eps_v threshold
   = Ret (verify_mode_value kz w h d lmbd0 eps_d eps_v threshold)).
Proof.
  unfold verify_mode.
  destruct (py_truediv_cases (2 * np.pi) lmbd0) as [[E1 ->] | [N1 ->]].
  - left. split; [left; assumption | reflexivity].
  - cbn [bind].
    destruct (py_truediv_cases (1 * np.pi) w) as [[E2 ->] | [N2 ->]].
    + left. split; [right; assumption | reflexivity].
    + right. split; [assumption |]. split; [assumption |].
      cbn [bind]. unfold verify_mode_value.
      destruct (verify_mode_wavenumbers _ _ _ _ _) as [kx_d kx_v].
      reflexivity.
Qed.

Lemma verify_mode_wavenumbers_eq (kz : C) (k0 ky : R) (eps_d eps_v : C) :
  let kx_d := csqrt (RtoC (k0 ^ 2) * eps_d - RtoC (ky ^ 2) - Csqr kz)%C in
  let kx_v := csqrt (Csqr kx_d - RtoC (k0 ^ 2) * (eps_d - eps_v))%C in
  verify_mode_wavenumbers kz k0 ky eps_d eps_v = (kx_d, kx_v).
Proof.
  intros kx_d kx_v. unfold verify_mode_wavenumbers, np.sqrt.
  rewrite Cadd_0_r.
  change (RtoC (k0 ^ 2) * eps_d - RtoC (ky ^ 2) + - Csqr kz)%C
    with (RtoC (k0 ^ 2) * eps_d - RtoC (ky ^ 2) - Csqr kz)%C.
  fold kx_d. unfold kx_v. f_equal.
  unfold kx_d at 1. rewrite csqrt_sqr. reflexivity.
Qed.

Lemma csin_one : csin (C_one * RtoC 1)%C <> C0j.
Proof.
  replace (C_one * RtoC 1)%C with (1, 0) by cx_eq.
  unfold csin, C0j. simpl. intros E. inversion E as [[E1 E2]].
  rewrite cosh_0 in E1.
  pose proof PI2_1. pose proof PI_RGT_0.
  assert (0 < sin 1) by (apply sin_gt_0; lra). lra.
Qed.

Lemma ccos_one : ccos (C_one * RtoC 1)%C <> C0j.
Proof.
  replace (C_one * RtoC 1)%C with (1, 0) by cx_eq.
  unfold ccos, C0j. simpl. intros E. inversion E as [[E1 E2]].
  rewrite cosh_0 in E1.
  pose proof PI2_1.
  assert (0 < cos 1) by (apply cos_gt_0; lra). lra.
Qed.

Lemma sqrt_2_gt_1 : 1 < sqrt 2.
Proof.
  rewrite <- sqrt_1 at 1. apply sqrt_lt_1_alt. lra.
Qed.



(** C4: the wavenumbers computed inside [verify_mode] are
    [kx_d = sqrt(k0^2 eps_d - ky^2 - kz^2)] and
    [kx_v = sqrt(kx_d^2 - k0^2 (eps_d - eps_v))], for every complex [kz] and
    all parameters, with the principal square root: [kx_d] squares to its
    radicand and both roots have a non-negative real part. *)
Theorem verify_mode_wavenumbers_spec
    (kz : C) (k0 ky : R) (eps_d eps_v : C) :
  let kx_d := csqrt (RtoC (k0 ^ 2) * eps_d - RtoC (ky ^ 2) - Csqr kz)%C in
  let kx_v := csqrt (Csqr kx_d - RtoC (k0 ^ 2) * (eps_d - eps_v))%C in
  verify_mode_wavenumbers kz k0 ky eps_d eps_v = (kx_d, kx_v)
  /\ Csqr kx_d = (RtoC (k0 ^ 2) * eps_d - RtoC (ky ^ 2) - Csqr kz)%C
  /\ Csqr kx_v = (Csqr kx_d - RtoC (k0 ^ 2) * (eps_d - eps_v))%C
  /\ 0 <= Cre kx_d /\ 0 <= Cre kx_v.
Proof.
  intros kx_d kx_v. split; [apply verify_mode_wavenumbers_eq |].
  split; [apply csqrt_sqr |]. split; [apply csqrt_sqr |].
  split; apply csqrt_re_nonneg.
Qed.

(** C5: away from the poles of the tangent and of the cotangent,
    [TEx_condition] is [kx_d cot(kx_d d) + kx_v cot(kx_v (h - d))], computed
    as [kx_d / tan(kx_d d) + kx_v / tan(kx_v (h - d))], and [TMx_condition]
    is [(kx_d / eps_d) tan(kx_d d) + (kx_v / eps_v) tan(kx_v (h - d))]. *)
Theorem mode_conditions_spec (kx_d kx_v eps_d eps_v : C) (d h : R) :
  let zd := (kx_d * RtoC d)%C in
  let zv := (kx_v * RtoC (h - d))%C in
  csin zd <> C0j -> ccos zd <> C0j -> csin zv <> C0j -> ccos zv <> C0j ->
  TEx_condition kx_d kx_v d h = (kx_d * ccot zd + kx_v * ccot zv)%C
  /\ TEx_condition kx_d kx_v d h = (kx_d / ctan zd + kx_v / ctan zv)%C
  /\ TMx_condition kx_d kx_v eps_d eps_v d h
     = ((kx_d / eps_d) * ctan zd + (kx_v / eps_v) * ctan zv)%C.
Proof.
  intros zd zv Hsd Hcd Hsv Hcv.
  split; [| split; reflexivity].
  unfold TEx_condition, np.tan, ctan, ccot. fold zd. fold zv.
  rewrite !Cdiv_div by assumption. reflexivity.
Qed.

Lemma mode_conditions_spec_witness :
  TEx_condition C_one C_one 1 2
  = (C_one * ccot (C_one * RtoC 1) + C_one * ccot (C_one * RtoC (2 - 1)))%C.
Proof.
  assert (E : 2 - 1 = 1) by ring.
  apply (proj1 (mode_conditions_spec C_one C_one ref_eps_d ref_eps_v 1 2
                  csin_one ccos_one
                  (eq_ind_r (fun x => csin (C_one * RtoC x)%C <> C0j) csin_one E)
                  (eq_ind_r (fun x => ccos (C_one * RtoC x)%C <> C0j) ccos_one E))).
Defined.

(** C10: the acceptance test of [verify_mode] is on the modulus: for every
    complex residual and positive threshold, [np.isclose(f, 0, atol)] holds
    exactly when [|f| <= atol]; it is not a test on the real and imaginary
    parts separately, as [1 + j] with threshold 1 shows. *)
Theorem isclose_zero_is_modulus :
  (forall (f : C) (threshold : R), 0 < threshold ->
     (np.isclose f C0j threshold = true <-> Cmod f <= threshold))
  /\ (exists (f : C) (threshold : R),
        0 < threshold /\ Rabs (Cre f) <= threshold
        /\ Rabs (Cim f) <= threshold
        /\ np.isclose f C0j threshold = false).
Proof.
  split.
  - intros f threshold _. apply isclose_zero.
  - exists (1, 1), 1. unfold Cre, Cim. simpl.
    rewrite Rabs_R1. repeat split; try lra.
    apply not_true_is_false. rewrite isclose_zero.
    unfold Cmod, Cnorm2. simpl.
    replace (1 * 1 + 1 * 1) with 2 by ring.
    pose proof sqrt_2_gt_1. lra.
Qed.

Lemma isclose_zero_is_modulus_witness :
  np.isclose (3 / 5, 4 / 5) C0j 1 = true <-> Cmod (3 / 5, 4 / 5) <= 1.
Proof.
  apply (proj1 isclose_zero_is_modulus (3 / 5, 4 / 5) 1). lra.
Defined.

(* ------------------------------------------------------------------ *)
(** ** Both kernels: dependence on the inputs, and exceptions *)
(* ------------------------------------------------------------------ *)









(* ------------------------------------------------------------------ *)
(** ** Further properties of the waveguide checker *)
(* ------------------------------------------------------------------ *)

Lemma cosh_opp (y : R) : cosh (- y) = cosh y.
Proof. unfold cosh. rewrite Ropp_involutive. field. Qed.

Lemma sinh_opp (y : R) : sinh (- y) = - sinh y.
Proof. unfold sinh. rewrite Ropp_involutive. field. Qed.

Lemma csin_opp (z : C) : csin (- z)%C = (- csin z)%C.
Proof.
  destruct z as [x y]. unfold csin, Copp. simpl.
  rewrite sin_neg, cos_neg, cosh_opp, sinh_opp. f_equal; ring.
Qed.

Lemma ccos_opp (z : C) : ccos (- z)%C = ccos z.
Proof.
  destruct z as [x y]. unfold ccos, Copp. simpl.
  rewrite sin_neg, cos_neg, cosh_opp, sinh_opp. f_equal; ring.
Qed.

Lemma Cnorm2_opp (z : C) : Cnorm2 (- z)%C = Cnorm2 z.
Proof. unfold Cnorm2, Copp. simpl. ring. Qed.

Lemma Cinv_opp (z : C) : Cinv (- z)%C = (- Cinv z)%C.
Proof.
  unfold Cinv. rewrite Cnorm2_opp. unfold Copp. simpl.
  unfold Rdiv. f_equal; ring.
Qed.

Lemma Cmul_opp_l (z w : C) : (- z * w)%C = (- (z * w))%C.
Proof. destruct z, w. cx_eq. Qed.

Lemma Cmul_opp_opp (z w : C) : (- z * - w)%C = (z * w)%C.
Proof. destruct z, w. cx_eq. Qed.

Lemma ctan_opp (z : C) : ctan (- z)%C = (- ctan z)%C.
Proof.
  unfold ctan, Cdiv. rewrite csin_opp, ccos_opp. apply Cmul_opp_l.
Qed.

Lemma Csqr_opp (z : C) : Csqr (- z)%C = Csqr z.
Proof. unfold Csqr. apply Cmul_opp_opp. Qed.

(** One term of the TM condition and one of the TE condition are even in
    the wavenumber. *)
Lemma tm_term_even (k e : C) (t : R) :
  (- k / e * np.tan (- k * RtoC t))%C = (k / e * np.tan (k * RtoC t))%C.
Proof.
  unfold np.tan. rewrite Cmul_opp_l, ctan_opp.
  unfold Cdiv. rewrite Cmul_opp_l. apply Cmul_opp_opp.
Qed.

Lemma te_term_even (k : C) (t : R) :
  (- k / np.tan (- k * RtoC t))%C = (k / np.tan (k * RtoC t))%C.
Proof.
  unfold np.tan. rewrite Cmul_opp_l, ctan_opp.
  unfold Cdiv. rewrite Cinv_opp. apply Cmul_opp_opp.
Qed.

(** X1: both mode conditions are even in [kx_d] and in [kx_v]: replacing a
    wavenumber by its negative, that is, taking the other branch of its
    square root, leaves the TE and the TM residual unchanged. *)
Theorem mode_conditions_even (kx_d kx_v eps_d eps_v : C) (d h : R) :
  TEx_condition (- kx_d) kx_v d h = TEx_condition kx_d kx_v d h
  /\ TEx_condition kx_d (- kx_v) d h = TEx_condition kx_d kx_v d h
  /\ TMx_condition (- kx_d) kx_v eps_d eps_v d h
     = TMx_condition kx_d kx_v eps_d eps_v d h
  /\ TMx_condition kx_d (- kx_v) eps_d eps_v d h
     = TMx_condition kx_d kx_v eps_d eps_v d h.
Proof.
  unfold TEx_condition, TMx_condition.
  rewrite !te_term_even, !tm_term_even. repeat split; reflexivity.
Qed.

(** X2: [verify_mode] is even in the candidate: [-kz] gets the verdict (or
    the exception) of [kz], for all parameters. *)
Theorem verify_mode_even_in_kz (kz : C) (w h d lmbd0 : R) (eps_d eps_v : C)
    (threshold : R) :
  verify_mode (- kz) w h d lmbd0 eps_d eps_v threshold
  = verify_mode kz w h d lmbd0 eps_d eps_v threshold.
Proof.
  unfold verify_mode, verify_mode_wavenumbers. rewrite Csqr_opp. reflexivity.
Qed.

Lemma py_truediv_opp (x y : R) :
  py_truediv x (- y)
  = match py_truediv x y with Ret q => Ret (- q) | Raise e => Raise e end.
Proof.
  destruct (py_truediv_cases x y) as [[E ->] | [N ->]].
  - subst. rewrite Ropp_0. apply py_truediv_raise.
  - rewrite py_truediv_ret by lra. f_equal. field. exact N.
Qed.

Lemma verify_mode_wavenumbers_sign (kz : C) (k0 ky : R) (eps_d eps_v : C) :
  verify_mode_wavenumbers kz (- k0) ky eps_d eps_v
  = verify_mode_wavenumbers kz k0 ky eps_d eps_v
  /\ verify_mode_wavenumbers kz k0 (- ky) eps_d eps_v
     = verify_mode_wavenumbers kz k0 ky eps_d eps_v.
Proof.
  unfold verify_mode_wavenumbers.
  replace ((- k0) ^ 2) with (k0 ^ 2) by ring.
  replace ((- ky) ^ 2) with (ky ^ 2) by ring.
  split; reflexivity.
Qed.

(** X3: [verify_mode] sees the width and the wavelength through their
    squares only: a negative width or wavelength is not rejected and gets
    the verdict of its absolute value. *)
Theorem verify_mode_sign_blind (kz : C) (w h d lmbd0 : R) (eps_d eps_v : C)
    (threshold : R) :
  verify_mode kz (- w) h d lmbd0 eps_d eps_v threshold
  = verify_mode kz w h d lmbd0 eps_d eps_v threshold
  /\ verify_mode kz w h d (- lmbd0) eps_d eps_v threshold
     = verify_mode kz w h d lmbd0 eps_d eps_v threshold.
Proof.
  unfold verify_mode. split.
  - destruct (py_truediv (2 * np.pi) lmbd0) as [k0 | e]; [| reflexivity].
    cbn [bind]. rewrite py_truediv_opp.
    destruct (py_truediv (1 * np.pi) w) as [ky | e]; [| reflexivity].
    cbn [bind].
    rewrite (proj2 (verify_mode_wavenumbers_sign kz k0 ky eps_d eps_v)).
    reflexivity.
  - rewrite py_truediv_opp.
    destruct (py_truediv (2 * np.pi) lmbd0) as [k0 | e]; [| reflexivity].
    cbn [bind].
    destruct (py_truediv (1 * np.pi) w) as [ky | e]; [| reflexivity].
    cbn [bind].
    rewrite (proj1 (verify_mode_wavenumbers_sign kz k0 ky eps_d eps_v)).
    reflexivity.
Qed.

(** X4: acceptance is monotone in the threshold: for a non-zero wavelength
    and width, a candidate accepted with one tolerance is accepted with
    every larger one. *)
Theorem verify_mode_threshold_monotone
    (kz : C) (w h d lmbd0 : R) (eps_d eps_v : C) (threshold threshold' : R) :
  threshold <= threshold' -> lmbd0 <> 0 -> w <> 0 ->
  exists b b' : bool,
    verify_mode kz w h d lmbd0 eps_d eps_v threshold = Ret b
    /\ verify_mode kz w h d lmbd0 eps_d eps_v threshold' = Ret b'
    /\ (b = true -> b' = true).
Proof.
  intros Hle Hl Hw.
  destruct (verify_mode_cases kz w h d lmbd0 eps_d eps_v threshold)
    as [[[Z | Z] _] | [_ [_ ->]]]; try contradiction.
  destruct (verify_mode_cases kz w h d lmbd0 eps_d eps_v threshold')
    as [[[Z | Z] _] | [_ [_ ->]]]; try contradiction.
  eexists _, _. split; [reflexivity |]. split; [reflexivity |].
  unfold verify_mode_value.
  destruct (verify_mode_wavenumbers _ _ _ _ _) as [kx_d kx_v].
  rewrite !orb_true_iff, !isclose_zero. intros [E | E]; [left | right]; lra.
Qed.

Lemma verify_mode_threshold_monotone_witness :
  exists b b' : bool,
    verify_mode C_one ref_w ref_h ref_d ref_lmbd0 ref_eps_d ref_eps_v
      (1 / 10000) = Ret b
    /\ verify_mode C_one ref_w ref_h ref_d ref_lmbd0 ref_eps_d ref_eps_v
         (1 / 100) = Ret b'
    /\ (b = true -> b' = true).
Proof.
  apply (verify_mode_threshold_monotone C_one ref_w ref_h ref_d ref_lmbd0
           ref_eps_d ref_eps_v (1 / 10000) (1 / 100)).
  - lra.
  - unfold ref_lmbd0. lra.
  - unfold ref_w. lra.
Defined.



(** X6: the wavenumbers of [verify_mode] satisfy the two separation
    equations the notebook writes for both mode families:
    [kx_d^2 + ky^2 + kz^2 = k0^2 eps_d] and
    [kx_v^2 + ky^2 + kz^2 = k0^2 eps_v]. *)
Theorem verify_mode_wavenumbers_separation
    (kz : C) (k0 ky : R) (eps_d eps_v : C) :
  let kx_d := fst (verify_mode_wavenumbers kz k0 ky eps_d eps_v) in
  let kx_v := snd (verify_mode_wavenumbers kz k0 ky eps_d eps_v) in
  (Csqr kx_d + RtoC (ky ^ 2) + Csqr kz)%C = (RtoC (k0 ^ 2) * eps_d)%C
  /\ (Csqr kx_v + RtoC (ky ^ 2) + Csqr kz)%C = (RtoC (k0 ^ 2) * eps_v)%C.
Proof.
  intros kx_d kx_v. unfold kx_d, kx_v.
  rewrite verify_mode_wavenumbers_eq. cbn [fst snd].
  rewrite !csqrt_sqr.
  destruct eps_d as [e1 e2], eps_v as [v1 v2].
  destruct (Csqr kz) as [z1 z2].
  split; cx_eq.
Qed.

(* ------------------------------------------------------------------ *)
(** ** Further properties of the Mie efficiency calculator *)
(* ------------------------------------------------------------------ *)

Lemma ref_size_parameter_pos :
  0 < size_parameter_spec ref_radius_wire ref_n_bkg ref_wl0.
Proof.
  unfold size_parameter_spec, ref_radius_wire, ref_n_bkg, ref_wl0.
  pose proof PI_RGT_0.
  replace (2 * PI * (5 / 100) * 1 / (4 / 10)) with (PI / 4) by field. lra.
Qed.





(** X7: the efficiencies depend on the wavelength and the radius through
    their ratio only: scaling both by the same non-zero factor (a change of
    length unit) changes neither the result nor the exception. *)
Theorem efficiencies_scale_invariant
    (sp : special) (eps : C) (n_bkg wl0 radius_wire s : R) (num_n : Z) :
  s <> 0 ->
  calculate_analytical_efficiencies sp eps n_bkg (s * wl0) (s * radius_wire)
    num_n
  = calculate_analytical_efficiencies sp eps n_bkg wl0 radius_wire num_n.
Proof.
  intros Hs. unfold calculate_analytical_efficiencies.
  destruct (py_truediv_cases (2 * np.pi * radius_wire) wl0)
    as [[E ->] | [N ->]].
  - subst. rewrite Rmult_0_r, py_truediv_raise. reflexivity.
  - rewrite py_truediv_ret by (apply Rmult_integral_contrapositive_currified;
                               assumption).
    replace (2 * np.pi * (s * radius_wire) / (s * wl0))
      with (2 * np.pi * radius_wire / wl0) by (field; split; assumption).
    reflexivity.
Qed.

Lemma efficiencies_scale_invariant_witness :
  calculate_analytical_efficiencies special_sample eps_au ref_n_bkg
    (1000 * ref_wl0) (1000 * ref_radius_wire) num_n_default
  = calculate_analytical_efficiencies special_sample eps_au ref_n_bkg ref_wl0
      ref_radius_wire num_n_default.
Proof.
  apply (efficiencies_scale_invariant special_sample eps_au ref_n_bkg ref_wl0
           ref_radius_wire 1000 num_n_default).
  lra.
Defined.

(** X8: a truncation order below zero is not rejected: it gives the result
    of order zero, the loop running over an empty range. *)
Theorem efficiencies_negative_order
    (sp : special) (eps : C) (n_bkg wl0 radius_wire : R) (num_n : Z) :
  (num_n <= 0)%Z ->
  calculate_analytical_efficiencies sp eps n_bkg wl0 radius_wire num_n
  = calculate_analytical_efficiencies sp eps n_bkg wl0 radius_wire 0.
Proof.
  intros H. unfold calculate_analytical_efficiencies.
  rewrite (range_nil 1 (num_n + 1)) by lia.
  rewrite (range_nil 1 (0 + 1)) by lia. reflexivity.
Qed.

Lemma efficiencies_negative_order_witness :
  calculate_analytical_efficiencies special_sample eps_au ref_n_bkg ref_wl0
    ref_radius_wire (-3)
  = calculate_analytical_efficiencies special_sample eps_au ref_n_bkg ref_wl0
      ref_radius_wire 0.
Proof.
  apply (efficiencies_negative_order special_sample eps_au ref_n_bkg ref_wl0
           ref_radius_wire (-3)).
  lia.
Defined.

(** X9: raising the truncation order by one adds one term of the series to
    each sum: from the result [(q_abs, q_sca, q_ext)] at order
    [num_n >= 0], the result at [num_n + 1] has
    [q_ext' = q_ext + (2/alpha) 2 Re(a)] and
    [q_sca' = q_sca + (2/alpha) 2 |a|^2] for the coefficient [a] of order
    [num_n + 1], and [q_abs' = q_ext' - q_sca']. *)
Theorem efficiencies_next_order
    (sp : special) (eps : C) (n_bkg wl0 radius_wire : R) (num_n : Z)
    (q_abs q_sca q_ext : R) :
  (0 <= num_n)%Z ->
  calculate_analytical_efficiencies sp eps n_bkg wl0 radius_wire num_n
  = Ret (q_abs, q_sca, q_ext) ->
  let m := relative_index_spec eps n_bkg in
  let alpha := size_parameter_spec radius_wire n_bkg wl0 in
  let a := compute_a sp (num_n + 1) m alpha in
  let q_ext' := q_ext + 2 / alpha * 2 * Cre a in
  let q_sca' := q_sca + 2 / alpha * 2 * Cmod a ^ 2 in
  calculate_analytical_efficiencies sp eps n_bkg wl0 radius_wire (num_n + 1)
  = Ret (q_ext' - q_sca', q_sca', q_ext').
Proof.
  intros HN H m alpha a q_ext' q_sca'.
  destruct (calculate_analytical_efficiencies_cases sp eps n_bkg wl0
              radius_wire num_n) as [[_ E] | [Hw [Ha E]]];
    rewrite E in H; [discriminate |].
  destruct (calculate_analytical_efficiencies_cases sp eps n_bkg wl0
              radius_wire (num_n + 1)) as [[[Z | Z] _] | [_ [_ ->]]];
    try contradiction.
  f_equal. injection H as H. revert H. unfold efficiencies_value.
  rewrite (range_snoc 1 (num_n + 1)) by lia. rewrite fold_left_app.
  destruct (fold_left _ (range 1 (num_n + 1)) _) as [e s].
  cbn [fold_left efficiencies_step]. rewrite size_parameter_code.
  intros H. injection H as <- <- <-. reflexivity.
Qed.

Lemma efficiencies_next_order_witness :
  let t := efficiencies_value special_sample eps_au ref_n_bkg ref_wl0
             ref_radius_wire 0 in
  let m := relative_index_spec eps_au ref_n_bkg in
  let alpha := size_parameter_spec ref_radius_wire ref_n_bkg ref_wl0 in
  let a := compute_a special_sample (0 + 1) m alpha in
  let q_ext' := snd t + 2 / alpha * 2 * Cre a in
  let q_sca' := snd (fst t) + 2 / alpha * 2 * Cmod a ^ 2 in
  calculate_analytical_efficiencies special_sample eps_au ref_n_bkg ref_wl0
    ref_radius_wire (0 + 1)
  = Ret (q_ext' - q_sca', q_sca', q_ext').
Proof.
  intros t.
  apply (efficiencies_next_order special_sample eps_au ref_n_bkg ref_wl0
           ref_radius_wire 0 (fst (fst t)) (snd (fst t)) (snd t)).
  - lia.
  - destruct (calculate_analytical_efficiencies_cases special_sample eps_au
                ref_n_bkg ref_wl0 ref_radius_wire 0)
      as [[[Z | Z] _] | [_ [_ ->]]].
    + unfold ref_wl0 in Z. lra.
    + rewrite size_parameter_code in Z.
      pose proof ref_size_parameter_pos. lra.
    + fold t. destruct t as [[q_abs q_sca] q_ext]. reflexivity.
Defined.





(* ------------------------------------------------------------------ *)
(** ** The incident plane wave *)
(* ------------------------------------------------------------------ *)

Lemma Forall_combine_map {A B D : Type} (P : B * D -> Prop)
    (f : A -> B) (g : A -> D) (l : list A) :
  (forall a, In a l -> P (f a, g a)) ->
  Forall P (combine (map f l) (map g l)).
Proof.
  induction l as [| a l IH]; intros H; simpl.
  - constructor.
  - constructor.
    + apply H. left. reflexivity.
    + apply IH. intros b Hb. apply H. right. exact Hb.
Qed.

Lemma Cnorm2_cexp (z : C) : Cnorm2 (cexp z) = exp (fst z) * exp (fst z).
Proof.
  destruct z as [a b]. unfold Cnorm2, cexp. simpl.
  pose proof (sin2_cos2 b) as H. unfold Rsqr in H.
  replace (exp a * cos b * (exp a * cos b) + exp a * sin b * (exp a * sin b))
    with (exp a * exp a * (sin b * sin b + cos b * cos b)) by ring.
  rewrite H. ring.
Qed.

Lemma Cnorm2_scale (a : R) (z : C) :
  Cnorm2 (RtoC a * z)%C = a * a * Cnorm2 z.
Proof. destruct z. unfold Cnorm2. cx_unfold. ring. Qed.

(** The phase is real when the wavevector is, and the exponential then has
    modulus one. *)
Lemma phase_factor_unit (n_b theta : R) (k0 : C) (p : point) :
  Cim k0 = 0 ->
  Cnorm2 (cexp (Ci * (RtoC n_b * k0 * RtoC (cos theta) * RtoC (x_0 p)
                      + RtoC n_b * k0 * RtoC (sin theta) * RtoC (x_1 p)))%C)
  = 1.
Proof.
  destruct k0 as [kr ki]. unfold Cim. simpl. intros ->.
  rewrite Cnorm2_cexp. unfold Ci. cx_unfold.
  match goal with |- exp ?a * exp ?a = 1 => replace a with 0 by ring end.
  rewrite exp_0. ring.
Qed.

Lemma amplitude_split (theta : R) (e : C) :
  Cnorm2 (RtoC (- sin theta) * e)%C + Cnorm2 (RtoC (cos theta) * e)%C
  = Cnorm2 e.
Proof.
  rewrite !Cnorm2_scale.
  pose proof (sin2_cos2 theta) as H. unfold Rsqr in H.
  replace (- sin theta * - sin theta * Cnorm2 e
           + cos theta * cos theta * Cnorm2 e)
    with ((sin theta * sin theta + cos theta * cos theta) * Cnorm2 e) by ring.
  rewrite H. ring.
Qed.

Lemma background_field_amplitude (theta n_b : R) (k0 : C) (x : list point) :
  Cim k0 = 0 ->
  Forall (fun e : C * C => Cnorm2 (fst e) + Cnorm2 (snd e) = 1)
    (combine (fst (background_field theta n_b k0 x))
             (snd (background_field theta n_b k0 x))).
Proof.
  intros Hk. unfold background_field. cbn [fst snd].
  apply Forall_combine_map. intros ph Hph. cbn [fst snd].
  apply in_map_iff in Hph. destruct Hph as [p [<- _]].
  rewrite amplitude_split. apply phase_factor_unit, Hk.
Qed.

Lemma background_field_length (theta n_b : R) (k0 : C) (x : list point) :
  length (fst (background_field theta n_b k0 x)) = length x
  /\ length (snd (background_field theta n_b k0 x)) = length x.
Proof.
  unfold background_field. cbn [fst snd]. rewrite !length_map. auto.
Qed.

(** X12: for a real wavevector [k0] the field returned by
    [background_field] has amplitude one at every point,
    [|E_x|^2 + |E_y|^2 = 1], and both components have one entry per
    point. *)
Theorem background_field_unit_amplitude
    (theta n_b : R) (k0 : C) (x : list point) :
  Cim k0 = 0 ->
  let E := background_field theta n_b k0 x in
  length (fst E) = length x /\ length (snd E) = length x
  /\ Forall (fun e : C * C => Cnorm2 (fst e) + Cnorm2 (snd e) = 1)
       (combine (fst E) (snd E)).
Proof.
  intros Hk E. unfold E.
  destruct (background_field_length theta n_b k0 x) as [L0 L1].
  repeat split; [exact L0 | exact L1 |].
  apply background_field_amplitude, Hk.
Qed.

Lemma background_field_unit_amplitude_witness :
  let E := background_field (PI / 4) 1 (RtoC 2) [(0, 0, 0); (1, 2, 0)] in
  length (fst E) = 2%nat /\ length (snd E) = 2%nat
  /\ Forall (fun e : C * C => Cnorm2 (fst e) + Cnorm2 (snd e) = 1)
       (combine (fst E) (snd E)).
Proof.
  apply (background_field_unit_amplitude (PI / 4) 1 (RtoC 2)
           [(0, 0, 0); (1, 2, 0)]).
  reflexivity.
Defined.

(** X13: the field is transverse: at every point
    [kx E_x + ky E_y = 0] for the wavevector
    [(kx, ky) = n_b k0 (cos theta, sin theta)], whatever [k0]. *)
Theorem background_field_transverse
    (theta n_b : R) (k0 : C) (x : list point) :
  let kx := (RtoC n_b * k0 * RtoC (cos theta))%C in
  let ky := (RtoC n_b * k0 * RtoC (sin theta))%C in
  let E := background_field theta n_b k0 x in
  Forall (fun e : C * C => (kx * fst e + ky * snd e)%C = C0j)
    (combine (fst E) (snd E)).
Proof.
  intros kx ky E. unfold E, background_field. cbn [fst snd].
  apply Forall_combine_map. intros ph _. cbn [fst snd].
  unfold kx, ky. destruct k0 as [kr ki]. destruct (cexp (Ci * ph)) as [er ei].
  cx_eq.
Qed.

(** X14: the field is a plane wave: moving every point along the wave front,
    by [t (-sin theta, cos theta)], leaves both components unchanged. *)
Theorem background_field_wave_front
    (theta n_b : R) (k0 : C) (x : list point) (t : R) :
  background_field theta n_b k0 (map (along_wave_front theta t) x)
  = background_field theta n_b k0 x.
Proof.
  unfold background_field. rewrite !map_map.
  assert (E : forall p : point,
    (RtoC n_b * k0 * RtoC (cos theta)
       * RtoC (x_0 (along_wave_front theta t p))
     + RtoC n_b * k0 * RtoC (sin theta)
       * RtoC (x_1 (along_wave_front theta t p)))%C
    = (RtoC n_b * k0 * RtoC (cos theta) * RtoC (x_0 p)
       + RtoC n_b * k0 * RtoC (sin theta) * RtoC (x_1 p))%C).
  { intros p. unfold along_wave_front, x_0, x_1. cbn [fst snd].
    destruct k0 as [kr ki]. cx_eq. }
  f_equal; apply map_ext; intros p; rewrite E; reflexivity.
Qed.

Lemma eval_init (theta n_b : R) (k0 : C) (x : list point) :
  BackgroundElectricField.eval (BackgroundElectricField.init theta n_b k0) x
  = background_field theta n_b k0 x.
Proof. reflexivity. Qed.

(** X15: the class of the scattering-boundary demo gives the same field:
    constructed from [(theta, n_b, k0)], its [eval] has amplitude one for a
    real [k0], which is the [E0 = 1] the demo relies on for the incident
    intensity, and is transverse to the wavevector. *)
Theorem BackgroundElectricField_eval_unit_amplitude
    (theta n_b : R) (k0 : C) (x : list point) :
  Cim k0 = 0 ->
  let self := BackgroundElectricField.init theta n_b k0 in
  let E := BackgroundElectricField.eval self x in
  let kx := (RtoC n_b * k0 * RtoC (cos theta))%C in
  let ky := (RtoC n_b * k0 * RtoC (sin theta))%C in
  Forall (fun e : C * C =>
            Cnorm2 (fst e) + Cnorm2 (snd e) = 1
            /\ (kx * fst e + ky * snd e)%C = C0j)
    (combine (fst E) (snd E)).
Proof.
  intros Hk self E kx ky. unfold E, self. rewrite eval_init.
  unfold background_field. cbn [fst snd].
  apply Forall_combine_map. intros ph Hph. cbn [fst snd].
  apply in_map_iff in Hph. destruct Hph as [p [<- _]]. split.
  - rewrite amplitude_split. apply phase_factor_unit, Hk.
  - unfold kx, ky. destruct k0 as [kr ki].
    match goal with |- context [cexp ?z] => destruct (cexp z) as [er ei] end.
    cx_eq.
Qed.

Lemma BackgroundElectricField_eval_unit_amplitude_witness :
  let self := BackgroundElectricField.init (PI / 4) (133 / 100) (RtoC 2) in
  let E := BackgroundElectricField.eval self [(0, 0, 0); (1, 2, 0)] in
  let kx := (RtoC (133 / 100) * RtoC 2 * RtoC (cos (PI / 4)))%C in
  let ky := (RtoC (133 / 100) * RtoC 2 * RtoC (sin (PI / 4)))%C in
  Forall (fun e : C * C =>
            Cnorm2 (fst e) + Cnorm2 (snd e) = 1
            /\ (kx * fst e + ky * snd e)%C = C0j)
    (combine (fst E) (snd E)).
Proof.
  apply (BackgroundElectricField_eval_unit_amplitude (PI / 4) (133 / 100)
           (RtoC 2) [(0, 0, 0); (1, 2, 0)]).
  reflexivity.
Defined.

(* ------------------------------------------------------------------ *)
(** ** The perfectly matched layer *)
(* ------------------------------------------------------------------ *)

Lemma pml_den_neq_0 (l_dom l_pml : R) :
  l_pml <> l_dom -> (l_pml / 2 - l_dom / 2) ^ 2 <> 0.
Proof.
  intros H E. apply H.
  simpl in E.
  assert (E' : l_pml / 2 - l_dom / 2 = 0) by nra.
  lra.
Qed.

Lemma pml_coordinates_value (x alpha : R) (k0 : C) (l_dom l_pml : R) :
  k0 <> C0j -> l_pml <> l_dom ->
  pml_coordinates x alpha k0 l_dom l_pml
  = Value (RtoC x
           + Ci * RtoC alpha / k0 * RtoC x * RtoC (Rabs x - l_dom / 2)
             / RtoC ((l_pml / 2 - l_dom / 2) ^ 2))%C.
Proof.
  intros Hk Hl. unfold pml_coordinates.
  destruct (C_eq_dec k0 C0j) as [E | _]; [contradiction |].
  destruct (Req_dec_T ((l_pml / 2 - l_dom / 2) ^ 2) 0) as [E | _];
    [exfalso; exact (pml_den_neq_0 l_dom l_pml Hl E) | reflexivity].
Qed.

(** X16: where it is defined ([k0] non-zero, [l_pml <> l_dom]) the
    expression built by [pml_coordinates] is the transformation the demo
    documents, [x (1 + j (alpha/k0) (|x| - l_dom/2) / (l_pml/2 - l_dom/2)^2)]. *)
Theorem pml_coordinates_as_documented
    (x alpha : R) (k0 : C) (l_dom l_pml : R) :
  k0 <> C0j -> l_pml <> l_dom ->
  pml_coordinates x alpha k0 l_dom l_pml
  = Value (pml_coordinates_doc x alpha k0 l_dom l_pml).
Proof.
  intros Hk Hl. rewrite pml_coordinates_value by assumption. f_equal.
  unfold pml_coordinates_doc.
  destruct (Cinv k0) as [i1 i2] eqn:Ei.
  unfold Cdiv. rewrite Ei.
  destruct (Cinv (RtoC ((l_pml / 2 - l_dom / 2) ^ 2))) as [j1 j2].
  unfold Ci. cx_eq.
Qed.

Lemma RtoC_neq_0 (k : R) : k <> 0 -> RtoC k <> C0j.
Proof. intros H E. apply H. unfold RtoC, C0j in E. injection E. auto. Qed.

Lemma pml_coordinates_as_documented_witness :
  pml_coordinates (45 / 100) 1 (RtoC 5) (8 / 10) 1
  = Value (pml_coordinates_doc (45 / 100) 1 (RtoC 5) (8 / 10) 1).
Proof.
  apply (pml_coordinates_as_documented (45 / 100) 1 (RtoC 5) (8 / 10) 1).
  - apply RtoC_neq_0. lra.
  - lra.
Defined.

(** X17: on the interface between domain and layer, [|x| = l_dom / 2], the
    transformation is the identity: the stretched coordinate joins the
    physical one continuously. *)
Theorem pml_coordinates_identity_on_interface
    (x alpha : R) (k0 : C) (l_dom l_pml : R) :
  k0 <> C0j -> l_pml <> l_dom -> Rabs x = l_dom / 2 ->
  pml_coordinates x alpha k0 l_dom l_pml = Value (RtoC x).
Proof.
  intros Hk Hl Hx. rewrite pml_coordinates_value by assumption. f_equal.
  rewrite Hx. replace (l_dom / 2 - l_dom / 2) with 0 by ring.
  destruct (Ci * RtoC alpha / k0)%C as [f1 f2].
  destruct (Cinv (RtoC ((l_pml / 2 - l_dom / 2) ^ 2))) as [j1 j2] eqn:Ej.
  unfold Cdiv. rewrite Ej. cx_eq.
Qed.

Lemma pml_coordinates_identity_on_interface_witness :
  pml_coordinates (- (4 / 10)) 1 (RtoC 5) (8 / 10) 1
  = Value (RtoC (- (4 / 10))).
Proof.
  apply (pml_coordinates_identity_on_interface (- (4 / 10)) 1 (RtoC 5)
           (8 / 10) 1).
  - apply RtoC_neq_0. lra.
  - lra.
  - rewrite Rabs_left by lra. lra.
Defined.

(** X18: the transformation is odd: the image of [-x] is the negative of
    the image of [x], so the two layers on opposite sides of the domain
    mirror each other. *)
Theorem pml_coordinates_odd (x alpha : R) (k0 : C) (l_dom l_pml : R) :
  k0 <> C0j -> l_pml <> l_dom ->
  exists z : C,
    pml_coordinates x alpha k0 l_dom l_pml = Value z
    /\ pml_coordinates (- x) alpha k0 l_dom l_pml = Value (- z)%C.
Proof.
  intros Hk Hl. eexists. split; [apply pml_coordinates_value; assumption |].
  rewrite pml_coordinates_value by assumption. f_equal.
  rewrite Rabs_Ropp.
  destruct (Ci * RtoC alpha / k0)%C as [f1 f2].
  destruct (Cinv (RtoC ((l_pml / 2 - l_dom / 2) ^ 2))) as [j1 j2] eqn:Ej.
  unfold Cdiv. rewrite Ej. cx_eq.
Qed.

Lemma pml_coordinates_odd_witness :
  exists z : C,
    pml_coordinates (45 / 100) 1 (RtoC 5) (8 / 10) 1 = Value z
    /\ pml_coordinates (- (45 / 100)) 1 (RtoC 5) (8 / 10) 1 = Value (- z)%C.
Proof.
  apply (pml_coordinates_odd (45 / 100) 1 (RtoC 5) (8 / 10) 1).
  - apply RtoC_neq_0. lra.
  - lra.
Defined.

Lemma Cinv_RtoC (k : R) : k <> 0 -> Cinv (RtoC k) = RtoC (/ k).
Proof.
  intros H. unfold Cinv, RtoC, Cnorm2. simpl. f_equal; field; exact H.
Qed.

Lemma pml_coordinates_real_k0 (x alpha k l_dom l_pml : R) :
  k <> 0 -> l_pml <> l_dom ->
  pml_coordinates x alpha (RtoC k) l_dom l_pml
  = Value (x, alpha / k * x * (Rabs x - l_dom / 2)
              / (l_pml / 2 - l_dom / 2) ^ 2).
Proof.
  intros Hk Hl.
  rewrite pml_coordinates_value by (try apply RtoC_neq_0; assumption).
  f_equal. unfold Cdiv.
  rewrite !Cinv_RtoC by (try apply pml_den_neq_0; assumption).
  assert (Hd : l_pml / 2 - l_dom / 2 <> 0) by lra.
  unfold Ci. cx_unfold. f_equal; field; split; lra.
Qed.

(** X19: for a real wavevector the transformation leaves the real part of
    the coordinate alone and adds the imaginary part
    [(alpha / k0) x (|x| - l_dom/2) / (l_pml/2 - l_dom/2)^2]. *)
Theorem pml_coordinates_real_wavevector (x alpha k l_dom l_pml : R) :
  k <> 0 -> l_pml <> l_dom ->
  exists z : C,
    pml_coordinates x alpha (RtoC k) l_dom l_pml = Value z
    /\ Cre z = x
    /\ Cim z = alpha / k * x * (Rabs x - l_dom / 2)
               / (l_pml / 2 - l_dom / 2) ^ 2.
Proof.
  intros Hk Hl. eexists. split; [apply pml_coordinates_real_k0; assumption |].
  split; reflexivity.
Qed.

Lemma pml_coordinates_real_wavevector_witness :
  exists z : C,
    pml_coordinates (45 / 100) 1 (RtoC 5) (8 / 10) 1 = Value z
    /\ Cre z = 45 / 100
    /\ Cim z = 1 / 5 * (45 / 100) * (Rabs (45 / 100) - 8 / 10 / 2)
               / (1 / 2 - 8 / 10 / 2) ^ 2.
Proof.
  apply (pml_coordinates_real_wavevector (45 / 100) 1 5 (8 / 10) 1); lra.
Defined.

(** X20: inside the layer the stretching absorbs: for positive [alpha] and
    [k0] and a coordinate beyond the interface, [|x| > l_dom / 2], the
    imaginary part of the image has the sign of [x]. *)
Theorem pml_coordinates_absorbing (x alpha k l_dom l_pml : R) :
  0 < alpha -> 0 < k -> l_pml <> l_dom -> l_dom / 2 < Rabs x ->
  exists z : C,
    pml_coordinates x alpha (RtoC k) l_dom l_pml = Value z
    /\ (0 < x -> 0 < Cim z) /\ (x < 0 -> Cim z < 0).
Proof.
  intros Ha Hk Hl Hx. eexists.
  split; [apply pml_coordinates_real_k0; [lra | assumption] |].
  unfold Cim. cbn [snd].
  assert (Hd : 0 < (l_pml / 2 - l_dom / 2) ^ 2).
  { pose proof (pml_den_neq_0 l_dom l_pml Hl) as N.
    pose proof (pow2_ge_0 (l_pml / 2 - l_dom / 2)). lra. }
  assert (Hi : 0 < / (l_pml / 2 - l_dom / 2) ^ 2)
    by (apply Rinv_0_lt_compat, Hd).
  assert (Hq : 0 < alpha / k) by (apply Rdiv_lt_0_compat; assumption).
  assert (Hg : 0 < alpha / k * (Rabs x - l_dom / 2)
                   * / (l_pml / 2 - l_dom / 2) ^ 2).
  { apply Rmult_lt_0_compat; [| exact Hi].
    apply Rmult_lt_0_compat; [exact Hq | lra]. }
  replace (alpha / k * x * (Rabs x - l_dom / 2)
           / (l_pml / 2 - l_dom / 2) ^ 2)
    with (x * (alpha / k * (Rabs x - l_dom / 2)
               * / (l_pml / 2 - l_dom / 2) ^ 2))
    by (unfold Rdiv; ring).
  split; intros Hs; nra.
Qed.

Lemma pml_coordinates_absorbing_witness :
  exists z : C,
    pml_coordinates (45 / 100) 1 (RtoC 5) (8 / 10) 1 = Value z
    /\ (0 < 45 / 100 -> 0 < Cim z) /\ (45 / 100 < 0 -> Cim z < 0).
Proof.
  apply (pml_coordinates_absorbing (45 / 100) 1 5 (8 / 10) 1); try lra.
  rewrite Rabs_right by lra. lra.
Defined.

(* ------------------------------------------------------------------ *)
(** ** The material tensors of the layer *)
(* ------------------------------------------------------------------ *)

Lemma Cmul_0_r (z : C) : (z * C0j)%C = C0j.
Proof. destruct z. cx_eq. Qed.

Lemma Cdiv_0_l (z : C) : (C0j / z)%C = C0j.
Proof. unfold Cdiv. destruct (Cinv z). cx_eq. Qed.

Lemma Cmul_0_l (z : C) : (C0j * z)%C = C0j.
Proof. destruct z. cx_eq. Qed.

Lemma Cmul_comm (z w : C) : (z * w)%C = (w * z)%C.
Proof. destruct z, w. cx_eq. Qed.

Lemma Cmul_assoc (z w u : C) : (z * (w * u))%C = (z * w * u)%C.
Proof. destruct z, w, u. cx_eq. Qed.

Lemma Cmul_1_r (z : C) : (z * C_one)%C = z.
Proof. destruct z. cx_eq. Qed.

Lemma Cmul_neq_0 (z w : C) : z <> C0j -> w <> C0j -> (z * w)%C <> C0j.
Proof. intros Hz Hw E. apply Cmul_eq_0 in E. tauto. Qed.

Lemma Cmul_div_cancel (n d : C) : d <> C0j -> (d * (n / d))%C = n.
Proof.
  intros H. rewrite Cmul_comm. apply Cdiv_mul_cancel, H.
Qed.

(** [b / (a b) = 1 / a] and [a / (a b) = 1 / b]. *)
Lemma Cdiv_mul_r (a b : C) :
  a <> C0j -> b <> C0j -> (b / (a * b))%C = Cinv a.
Proof.
  intros Ha Hb.
  assert (E : (Cinv a * (a * b))%C = b).
  { rewrite Cmul_assoc, (Cmul_comm (Cinv a) a), Cmul_inv_r by exact Ha.
    rewrite Cmul_comm. apply Cmul_1_r. }
  rewrite <- E at 1. unfold Cdiv.
  rewrite <- Cmul_assoc, Cmul_inv_r by (apply Cmul_neq_0; assumption).
  apply Cmul_1_r.
Qed.

Lemma Cdiv_mul_l (a b : C) :
  a <> C0j -> b <> C0j -> (a / (a * b))%C = Cinv b.
Proof.
  intros Ha Hb. rewrite (Cmul_comm a b). apply Cdiv_mul_r; assumption.
Qed.

Ltac pair_eq :=
  repeat match goal with |- (_, _) = (_, _) => apply f_equal2 end.

Lemma det_diag (a b : C) :
  ufl.det ((a, C0j, C0j), (C0j, b, C0j), (C0j, C0j, C_one)) = (a * b)%C.
Proof. destruct a, b. unfold ufl.det. cx_eq. Qed.

Lemma adj_diag (a b : C) :
  ufl.adj ((a, C0j, C0j), (C0j, b, C0j), (C0j, C0j, C_one))
  = ufl.diag3 b a (a * b)%C.
Proof.
  destruct a, b. unfold ufl.adj, ufl.diag3. cx_unfold.
  pair_eq; ring.
Qed.

Lemma mmap_diag (f : C -> C) (x y z : C) :
  f C0j = C0j ->
  ufl.mmap f (ufl.diag3 x y z) = ufl.diag3 (f x) (f y) (f z).
Proof.
  intros H.
  unfold ufl.mmap, ufl.vmap, ufl.diag3, ufl.row0, ufl.row1, ufl.row2,
    ufl.c0, ufl.c1, ufl.c2.
  cbn [fst snd]. rewrite !H. reflexivity.
Qed.

Lemma mmul_diag (x y z x' y' z' : C) :
  ufl.mmul (ufl.diag3 x y z) (ufl.transpose (ufl.diag3 x' y' z'))
  = ufl.diag3 (x * x')%C (y * y')%C (z * z')%C.
Proof.
  destruct x, y, z, x', y', z'.
  unfold ufl.mmul, ufl.transpose, ufl.vdot, ufl.diag3, ufl.row0, ufl.row1,
    ufl.row2, ufl.c0, ufl.c1, ufl.c2.
  cbn [fst snd]. cx_unfold.
  pair_eq; ring.
Qed.

(** Both tensors are diagonal, whatever the Jacobian. *)
Lemma create_eps_mu_shape (gradJ : (C * C) * (C * C)) (eps_bkg mu_bkg : C) :
  let a := fst (fst gradJ) in
  let b := snd (snd gradJ) in
  let D := (a * b)%C in
  create_eps_mu gradJ eps_bkg mu_bkg
  = (ufl.diag3 (D * (b / D) * eps_bkg * (b / D))
       (D * (a / D) * eps_bkg * (a / D))
       (D * (D / D) * eps_bkg * (D / D)),
     ufl.diag3 (D * (b / D) * mu_bkg * (b / D))
       (D * (a / D) * mu_bkg * (a / D))
       (D * (D / D) * mu_bkg * (D / D)))%C.
Proof.
  destruct gradJ as [[a g01] [g10 b]]. cbn [fst snd].
  unfold create_eps_mu, ufl.inv. cbn [fst snd].
  rewrite det_diag, adj_diag.
  rewrite (mmap_diag (fun z => (z / (a * b))%C)) by apply Cdiv_0_l.
  rewrite (mmap_diag (fun z => (a * b * z)%C)) by apply Cmul_0_r.
  rewrite !(mmap_diag (fun z => (z * _)%C)) by apply Cmul_0_l.
  rewrite !mmul_diag. reflexivity.
Qed.

Lemma pml_entry (D x e : C) :
  D <> C0j -> (D * (x / D) * e * (x / D))%C = (e * x * (x / D))%C.
Proof.
  intros H. rewrite Cmul_div_cancel by exact H.
  rewrite (Cmul_comm x e). reflexivity.
Qed.

(** X21: for a Jacobian with non-zero diagonal entries [J00] and [J11],
    [create_eps_mu] returns the diagonal tensors
    [eps_bkg diag(J11/J00, J00/J11, J00 J11)] and
    [mu_bkg diag(J11/J00, J00/J11, J00 J11)]; the off-diagonal entries of
    the gradient play no part. *)
Theorem create_eps_mu_diagonal
    (gradJ : (C * C) * (C * C)) (eps_bkg mu_bkg : C) :
  let J00 := fst (fst gradJ) in
  let J11 := snd (snd gradJ) in
  J00 <> C0j -> J11 <> C0j ->
  create_eps_mu gradJ eps_bkg mu_bkg
  = (ufl.diag3 (eps_bkg * J11 / J00) (eps_bkg * J00 / J11)
       (eps_bkg * J00 * J11),
     ufl.diag3 (mu_bkg * J11 / J00) (mu_bkg * J00 / J11)
       (mu_bkg * J00 * J11))%C.
Proof.
  intros J00 J11 Ha Hb. rewrite create_eps_mu_shape. fold J00. fold J11.
  assert (HD : (J00 * J11)%C <> C0j) by (apply Cmul_neq_0; assumption).
  rewrite !pml_entry by exact HD.
  rewrite Cdiv_mul_r, Cdiv_mul_l by assumption.
  unfold Cdiv at 1 2. rewrite Cmul_inv_r by exact HD.
  rewrite !Cmul_1_r, !Cmul_assoc. reflexivity.
Qed.

Lemma create_eps_mu_diagonal_witness :
  create_eps_mu ((RtoC 2, C0j), (C0j, RtoC 4)) (RtoC 3) C_one
  = (ufl.diag3 (RtoC 3 * RtoC 4 / RtoC 2) (RtoC 3 * RtoC 2 / RtoC 4)
       (RtoC 3 * RtoC 2 * RtoC 4),
     ufl.diag3 (C_one * RtoC 4 / RtoC 2) (C_one * RtoC 2 / RtoC 4)
       (C_one * RtoC 2 * RtoC 4))%C.
Proof.
  apply (create_eps_mu_diagonal ((RtoC 2, C0j), (C0j, RtoC 4)) (RtoC 3) C_one).
  - apply RtoC_neq_0. lra.
  - apply RtoC_neq_0. lra.
Defined.

Lemma pml_entry_swap (p e m q : C) :
  (p * e * q * m)%C = (p * m * q * e)%C.
Proof. destruct p, e, m, q. cx_eq. Qed.

(** X22: the two tensors stay proportional to the background values,
    [mu_bkg eps_pml = eps_bkg mu_pml] entry by entry, for every Jacobian:
    the layer keeps the impedance of the background. *)
Theorem create_eps_mu_impedance_matched
    (gradJ : (C * C) * (C * C)) (eps_bkg mu_bkg : C) :
  let '(eps_pml, mu_pml) := create_eps_mu gradJ eps_bkg mu_bkg in
  ufl.mmap (fun z => (z * mu_bkg)%C) eps_pml
  = ufl.mmap (fun z => (z * eps_bkg)%C) mu_pml.
Proof.
  rewrite create_eps_mu_shape. cbn zeta.
  rewrite !(mmap_diag (fun z => (z * _)%C)) by apply Cmul_0_l.
  rewrite !(pml_entry_swap _ eps_bkg mu_bkg). reflexivity.
Qed.

(* ------------------------------------------------------------------ *)
(** ** Radial distance, the two regions, the final checks *)
(* ------------------------------------------------------------------ *)

Lemma sum_sqr_nonneg (a b : R) : 0 <= a ^ 2 + b ^ 2.
Proof. simpl. nra. Qed.

(** X23: [radial_distance] is never negative and vanishes at the origin of
    the plane only, so the term [1 / (2 r)] of the boundary condition has a
    non-zero divisor away from the axis of the wire. *)
Theorem radial_distance_zero_iff_origin (p : point) :
  0 <= radial_distance p
  /\ (radial_distance p = 0 <-> x_0 p = 0 /\ x_1 p = 0).
Proof.
  unfold radial_distance. split; [apply sqrt_pos |].
  pose proof (sum_sqr_nonneg (x_0 p) (x_1 p)) as Hs. split.
  - intros E. apply sqrt_eq_0 in E; [| exact Hs]. simpl in E. split; nra.
  - intros [-> ->]. replace (0 ^ 2 + 0 ^ 2) with 0 by ring. apply sqrt_0.
Qed.

(** X24: on the circle of radius [rho] about the origin, at any angle and
    height, [radial_distance] is [|rho|]. *)
Theorem radial_distance_on_circle (rho t z : R) :
  radial_distance (rho * cos t, rho * sin t, z) = Rabs rho.
Proof.
  unfold radial_distance, x_0, x_1. cbn [fst snd].
  pose proof (sin2_cos2 t) as H. unfold Rsqr in H.
  replace ((rho * cos t) ^ 2 + (rho * sin t) ^ 2)
    with (Rsqr rho * (sin t * sin t + cos t * cos t))
    by (unfold Rsqr; ring).
  rewrite H, Rmult_1_r. apply sqrt_Rsqr_abs.
Qed.

Lemma Forall_combine3_map {A B D : Type} (P : A * (B * D) -> Prop)
    (f : A -> B) (g : A -> D) (l : list A) :
  (forall a, In a l -> P (a, (f a, g a))) ->
  Forall P (combine l (combine (map f l) (map g l))).
Proof.
  induction l as [| a l IH]; intros H; simpl.
  - constructor.
  - constructor.
    + apply H. left. reflexivity.
    + apply IH. intros b Hb. apply H. right. exact Hb.
Qed.

(** X25: the two region markers of the waveguide demo cover the domain and
    overlap on the interface only: every point is marked by [Omega_d] or by
    [Omega_v], and by both exactly when its height is [d]. *)
Theorem Omega_cover_and_interface (d : R) (x : list point) :
  length (Omega_d d x) = length x /\ length (Omega_v d x) = length x
  /\ Forall (fun q : point * (bool * bool) =>
               let '(p, (in_d, in_v)) := q in
               in_d || in_v = true
               /\ (in_d && in_v = true <-> x_1 p = d))
       (combine x (combine (Omega_d d x) (Omega_v d x))).
Proof.
  unfold Omega_d, Omega_v. rewrite !length_map.
  split; [reflexivity |]. split; [reflexivity |].
  apply Forall_combine3_map. intros p _.
  destruct (Rle_dec (x_1 p) d) as [Hle | Hle];
    destruct (Rge_dec (x_1 p) d) as [Hge | Hge]; cbn [orb andb];
    (split; [try reflexivity; lra | split; intros E; try discriminate; lra]).
Qed.

Lemma relative_error_lt (a f : R) :
  0 < a -> (relative_error a f < 1 / 100 <-> Rabs (a - f) < a / 100).
Proof.
  intros Ha. unfold relative_error, Rdiv.
  assert (Hi : 0 < / a) by (apply Rinv_0_lt_compat, Ha).
  split; intros H.
  - apply (Rmult_lt_compat_r a) in H; [| exact Ha].
    rewrite Rmult_assoc, Rinv_l, Rmult_1_r in H by lra. lra.
  - apply (Rmult_lt_reg_r a); [exact Ha |].
    rewrite Rmult_assoc, Rinv_l, Rmult_1_r by lra. lra.
Qed.

Lemma calculate_analytical_efficiencies_sum
    (sp : special) (eps : C) (n_bkg wl0 radius_wire : R) (num_n : Z)
    (q_abs q_sca q_ext : R) :
  calculate_analytical_efficiencies sp eps n_bkg wl0 radius_wire num_n
  = Ret (q_abs, q_sca, q_ext) ->
  q_ext = q_abs + q_sca.
Proof.
  intros H.
  destruct (calculate_analytical_efficiencies_cases sp eps n_bkg wl0
              radius_wire num_n) as [[_ E] | [_ [_ E]]];
    rewrite E in H; [discriminate |].
  injection H as H. revert H. unfold efficiencies_value.
  destruct (fold_left _ _ _) as [e s]. intros H. injection H as <- <- <-.
  ring.
Qed.

Lemma compute_a_half (nu : Z) (m : C) (alpha : R) :
  compute_a special_half nu m alpha = (1 / 2, 0).
Proof.
  destruct m as [m1 m2]. unfold compute_a, special_half. cx_unfold.
  f_equal; field.
Qed.

Lemma efficiencies_half_order_0 :
  let c := 2 / size_parameter_spec ref_radius_wire ref_n_bkg ref_wl0 in
  calculate_analytical_efficiencies special_half eps_au ref_n_bkg ref_wl0
    ref_radius_wire 0
  = Ret (c / 4, c / 4, c / 2).
Proof.
  intros c. pose proof ref_size_parameter_pos as Hpos.
  destruct (calculate_analytical_efficiencies_cases special_half eps_au
              ref_n_bkg ref_wl0 ref_radius_wire 0)
    as [[[Z | Z] _] | [_ [_ ->]]].
  - unfold ref_wl0 in Z. lra.
  - rewrite size_parameter_code in Z. lra.
  - unfold efficiencies_value. rewrite size_parameter_code. fold c.
    rewrite (range_nil 1 (0 + 1)) by lia. cbn [fold_left].
    rewrite compute_a_half. unfold np.abs, np.real.
    rewrite Cmod_pow2. unfold Cnorm2, Cre. cbn [fst snd].
    apply f_equal. pair_eq; field.
Qed.

Lemma relative_error_self (a : R) : relative_error a a < 1 / 100.
Proof.
  unfold relative_error. rewrite Rminus_diag, Rabs_R0.
  unfold Rdiv. rewrite Rmult_0_l. lra.
Qed.


(** X26: the third assertion of the final checks is implied by the first
    two: when the analytical triple comes from
    [calculate_analytical_efficiencies] with positive absorption and
    scattering efficiencies, relative errors below 1% on absorption and on
    scattering make all three assertions pass. *)
Theorem check_efficiencies_two_suffice
    (sp : special) (eps : C) (n_bkg wl0 radius_wire : R) (num_n : Z)
    (q_abs_analyt q_sca_analyt q_ext_analyt q_abs_fenics q_sca_fenics : R) :
  calculate_analytical_efficiencies sp eps n_bkg wl0 radius_wire num_n
  = Ret (q_abs_analyt, q_sca_analyt, q_ext_analyt) ->
  0 < q_abs_analyt -> 0 < q_sca_analyt ->
  relative_error q_abs_analyt q_abs_fenics < 1 / 100 ->
  relative_error q_sca_analyt q_sca_fenics < 1 / 100 ->
  check_efficiencies q_abs_analyt q_sca_analyt q_ext_analyt q_abs_fenics
    q_sca_fenics
  = Value tt.
Proof.
  intros Hc Ha Hs Ea Es.
  apply calculate_analytical_efficiencies_sum in Hc.
  unfold check_efficiencies, py_assert.
  destruct (Rlt_dec (relative_error q_abs_analyt q_abs_fenics) (1 / 100));
    [| contradiction].
  destruct (Rlt_dec (relative_error q_sca_analyt q_sca_fenics) (1 / 100));
    [| contradiction].
  destruct (Rlt_dec (relative_error q_ext_analyt
                       (q_abs_fenics + q_sca_fenics)) (1 / 100))
    as [| N]; [reflexivity |].
  exfalso. apply N.
  apply relative_error_lt in Ea; [| exact Ha].
  apply relative_error_lt in Es; [| exact Hs].
  apply relative_error_lt; [lra |]. subst q_ext_analyt.
  replace (q_abs_analyt + q_sca_analyt - (q_abs_fenics + q_sca_fenics))
    with ((q_abs_analyt - q_abs_fenics) + (q_sca_analyt - q_sca_fenics))
    by ring.
  pose proof (Rabs_triang (q_abs_analyt - q_abs_fenics)
                (q_sca_analyt - q_sca_fenics)).
  lra.
Qed.

Lemma check_efficiencies_two_suffice_witness :
  let c := 2 / size_parameter_spec ref_radius_wire ref_n_bkg ref_wl0 in
  check_efficiencies (c / 4) (c / 4) (c / 2) (c / 4) (c / 4) = Value tt.
Proof.
  intros c.
  assert (Hc : 0 < c).
  { unfold c. apply Rdiv_lt_0_compat; [lra | exact ref_size_parameter_pos]. }
  apply (check_efficiencies_two_suffice special_half eps_au ref_n_bkg ref_wl0
           ref_radius_wire 0 (c / 4) (c / 4) (c / 2) (c / 4) (c / 4)).
  - exact efficiencies_half_order_0.
  - lra.
  - lra.
  - apply relative_error_self.
  - apply relative_error_self.
Defined.

(** X27: the relative errors divide by the analytical value without taking
    its modulus, so negative analytical efficiencies make all three
    assertions pass whatever the numerical values are. *)
Theorem check_efficiencies_negative_reference
    (q_abs_analyt q_sca_analyt q_ext_analyt q_abs_fenics q_sca_fenics : R) :
  q_abs_analyt < 0 -> q_sca_analyt < 0 -> q_ext_analyt < 0 ->
  check_efficiencies q_abs_analyt q_sca_analyt q_ext_analyt q_abs_fenics
    q_sca_fenics
  = Value tt.
Proof.
  intros Ha Hs He.
  assert (G : forall a f, a < 0 -> relative_error a f < 1 / 100).
  { intros a f Hneg. unfold relative_error, Rdiv.
    assert (Hi : / a < 0) by (apply Rinv_lt_0_compat, Hneg).
    pose proof (Rabs_pos (a - f)). nra. }
  unfold check_efficiencies, py_assert.
  destruct (Rlt_dec _ _) as [| N]; [| exfalso; apply N, G, Ha].
  destruct (Rlt_dec _ _) as [| N]; [| exfalso; apply N, G, Hs].
  destruct (Rlt_dec _ _) as [| N]; [| exfalso; apply N, G, He].
  reflexivity.
Qed.

Lemma check_efficiencies_negative_reference_witness :
  check_efficiencies (- 1) (- 2) (- 3) 1000 1000 = Value tt.
Proof.
  apply (check_efficiencies_negative_reference (- 1) (- 2) (- 3) 1000 1000);
    lra.
Defined.

(* ------------------------------------------------------------------ *)
(** ** The post-processing of the eigenvalues *)
(* ------------------------------------------------------------------ *)

Lemma insert_by_real_In (v u : Z * C) (l : list (Z * C)) :
  In u (insert_by_real v l) <-> u = v \/ In u l.
Proof.
  induction l as [| a l IH]; simpl.
  - intuition.
  - destruct (Rle_dec (Cre (snd v)) (Cre (snd a))); simpl.
    + intuition.
    + rewrite IH. intuition.
Qed.

Lemma sort_by_real_In (u : Z * C) (l : list (Z * C)) :
  In u (sort_by_real l) <-> In u l.
Proof.
  induction l as [| a l IH]; simpl.
  - tauto.
  - rewrite insert_by_real_In, IH. intuition.
Qed.



(** What the loop returns when no assertion fails. *)
Lemma verify_loop_value (computeError : Z -> R) (tol w h d lmbd0 : R)
    (eps_d eps_v : C) (vals : list (Z * C)) (acc out : list C) :
  verify_loop computeError tol w h d lmbd0 eps_d eps_v vals acc = Value out ->
  out = acc ++ map snd
                 (filter (fun v => mode_accepted computeError tol (fst v)
                                     (snd v)) vals)
  /\ Forall (fun v =>
               mode_accepted computeError tol (fst v) (snd v) = true ->
               verify_mode (snd v) w h d lmbd0 eps_d eps_v (1 / 10000)
               = Ret true) vals.
Proof.
  revert acc. induction vals as [| [i kz] rest IH]; intros acc H;
    cbn [verify_loop filter map fst snd] in *.
  - injection H as <-. rewrite app_nil_r. split; [reflexivity | constructor].
  - destruct (mode_accepted computeError tol i kz) eqn:Ea.
    + destruct (verify_mode kz w h d lmbd0 eps_d eps_v (1 / 10000))
        as [[|] | e] eqn:Ev; try discriminate.
      destruct (IH _ H) as [-> F]. split.
      * cbn [map snd]. rewrite <- app_assoc. reflexivity.
      * constructor; [intros _; exact Ev | exact F].
    + destruct (IH _ H) as [-> F]. split; [reflexivity |].
      constructor; [| exact F].
      cbn [fst snd]. rewrite Ea. intros E. discriminate.
Qed.

Lemma mode_accepted_true (computeError : Z -> R) (tol : R) (i : Z) (kz : C) :
  mode_accepted computeError tol i kz = true
  <-> computeError i < tol /\ Rabs (Cim kz) <= tol.
Proof.
  unfold mode_accepted, isclose_real_0.
  rewrite andb_true_iff, Rminus_0_r, Rabs_R0.
  replace (tol + np.rtol * 0) with tol by ring.
  destruct (Rlt_dec (computeError i) tol);
    destruct (Rle_dec (Rabs (Cim kz)) tol); intuition discriminate.
Qed.

Lemma eigen_vals_In (getEigenvalue : Z -> C) (nconv : Z) (i : Z) (kz : C) :
  In (i, kz) (eigen_vals getEigenvalue nconv)
  <-> (0 <= i < nconv)%Z /\ kz = np.sqrt (- getEigenvalue i)%C.
Proof.
  unfold eigen_vals. rewrite in_map_iff. split.
  - intros [j [E Hj]]. injection E as -> <-. apply in_range in Hj. auto.
  - intros [Hi ->]. exists i. split; [reflexivity | apply in_range, Hi].
Qed.

Lemma Copp_Csqr_csqrt_opp (z : C) : (- Csqr (np.sqrt (- z)))%C = z.
Proof.
  unfold np.sqrt. rewrite csqrt_sqr. destruct z. cx_eq.
Qed.

Lemma collected_In
    (getEigenvalue : Z -> C) (computeError : Z -> R) (nconv : Z)
    (tol w h d lmbd0 : R) (eps_d eps_v : C) (out : list C) (kz : C) :
  collect_modes getEigenvalue computeError nconv tol w h d lmbd0 eps_d eps_v
  = Value out ->
  In kz out ->
  exists i : Z,
    (0 <= i < nconv)%Z /\ kz = np.sqrt (- getEigenvalue i)%C
    /\ computeError i < tol /\ Rabs (Cim kz) <= tol
    /\ verify_mode kz w h d lmbd0 eps_d eps_v (1 / 10000) = Ret true.
Proof.
  unfold collect_modes. intros H Hin.
  apply verify_loop_value in H. destruct H as [-> F]. simpl in Hin.
  apply in_map_iff in Hin. destruct Hin as [[i kz'] [E Hf]].
  simpl in E. subst kz'. apply filter_In in Hf. destruct Hf as [Hv Ha].
  simpl in Ha. rewrite Forall_forall in F. specialize (F _ Hv Ha).
  apply sort_by_real_In, eigen_vals_In in Hv. destruct Hv as [Hi Hk].
  apply mode_accepted_true in Ha. destruct Ha as [He Him].
  exists i. repeat split; try assumption; lia.
Qed.

(** X28: when the post-processing ends without a failed assertion, every
    propagation constant it has collected comes from a converged
    eigenvalue: [-kz^2] is that eigenvalue again (what the demo prints as
    [eigenvalue]), [kz] has a non-negative real part, an imaginary part
    within [tol] of zero and a solver error below [tol], and
    [verify_mode] accepted it. *)
Theorem collect_modes_sound
    (getEigenvalue : Z -> C) (computeError : Z -> R) (nconv : Z)
    (tol w h d lmbd0 : R) (eps_d eps_v : C) (out : list C) (kz : C) :
  collect_modes getEigenvalue computeError nconv tol w h d lmbd0 eps_d eps_v
  = Value out ->
  In kz out ->
  exists i : Z,
    (0 <= i < nconv)%Z
    /\ (- Csqr kz)%C = getEigenvalue i
    /\ 0 <= Cre kz /\ Rabs (Cim kz) <= tol /\ computeError i < tol
    /\ verify_mode kz w h d lmbd0 eps_d eps_v (1 / 10000) = Ret true.
Proof.
  intros H Hin.
  destruct (collected_In _ _ _ _ _ _ _ _ _ _ out kz H Hin)
    as (i & Hi & Hk & He & Him & Hv).
  exists i. repeat split; try assumption; try lia.
  - rewrite Hk. apply Copp_Csqr_csqrt_opp.
  - rewrite Hk. apply csqrt_re_nonneg.
Qed.




(** X30: evanescent modes are never collected: with [tol >= 0], no
    collected [kz] belongs to a real eigenvalue above [tol^2], for which
    [kz] would be imaginary with modulus above [tol]. *)
Theorem collect_modes_no_evanescent
    (getEigenvalue : Z -> C) (computeError : Z -> R) (nconv : Z)
    (tol w h d lmbd0 : R) (eps_d eps_v : C)
    (out : list C) (kz : C) (lam : R) :
  0 <= tol -> tol ^ 2 < lam ->
  collect_modes getEigenvalue computeError nconv tol w h d lmbd0 eps_d eps_v
  = Value out ->
  In kz out ->
  (- Csqr kz)%C <> RtoC lam.
Proof.
  intros Ht Hl H Hin E.
  destruct (collected_In _ _ _ _ _ _ _ _ _ _ out kz H Hin)
    as (i & _ & _ & _ & Him & _).
  destruct kz as [a b]. unfold Cim in Him. cbn [snd] in Him.
  unfold Csqr, Cmul, Copp, RtoC in E. cbn [fst snd] in E.
  injection E as E1 E2.
  assert (Hb : Rabs b * Rabs b = b * b).
  { unfold Rabs. destruct (Rcase_abs b); ring. }
  pose proof (Rabs_pos b) as Hp. simpl in Hl.
  assert (Ha : a = 0 \/ b = 0).
  { assert (Hab : a * b = 0) by lra.
    apply Rmult_integral in Hab. exact Hab. }
  destruct Ha as [-> | ->].
  - nra.
  - nra.
Qed.


(** The run on one eigenvalue: its propagation constant is real, the
    wavenumbers it leads to vanish, and the TM residual is zero. *)
Lemma run_kz_value : run_kz = (sqrt (3 * PI ^ 2), 0).
Proof.
  unfold run_kz, run_eigenvalue, np.sqrt, csqrt, Cmod, Cnorm2, RtoC, Copp,
    sgn_im.
  cbn [fst snd].
  assert (Hp : 0 <= 3 * PI ^ 2) by (simpl; pose proof PI_RGT_0; nra).
  replace (- - (3 * PI ^ 2) * - - (3 * PI ^ 2) + - 0 * - 0)
    with ((3 * PI ^ 2) * (3 * PI ^ 2)) by ring.
  rewrite sqrt_square by exact Hp.
  replace ((3 * PI ^ 2 + - - (3 * PI ^ 2)) / 2) with (3 * PI ^ 2) by field.
  replace ((3 * PI ^ 2 - - - (3 * PI ^ 2)) / 2) with 0 by field.
  rewrite sqrt_0. f_equal. ring.
Qed.

Lemma csqrt_0 : csqrt C0j = C0j.
Proof.
  unfold csqrt. rewrite Cmod_0. unfold C0j. cbn [fst snd].
  replace ((0 + 0) / 2) with 0 by field.
  replace ((0 - 0) / 2) with 0 by field.
  rewrite sqrt_0. f_equal. ring.
Qed.

Lemma TMx_condition_0 (eps_d eps_v : C) (d h : R) :
  TMx_condition C0j C0j eps_d eps_v d h = C0j.
Proof.
  unfold TMx_condition.
  destruct (np.tan (C0j * RtoC d)) as [t1 t2].
  destruct (np.tan (C0j * RtoC (h - d))) as [u1 u2].
  destruct (Cinv eps_d) as [i1 i2] eqn:Ed.
  destruct (Cinv eps_v) as [j1 j2] eqn:Ev.
  unfold Cdiv. rewrite Ed, Ev. cx_eq.
Qed.

Lemma run_verify_mode (h d : R) :
  verify_mode run_kz 1 h d 1 C_one C_one (1 / 10000) = Ret true.
Proof.
  destruct (verify_mode_cases run_kz 1 h d 1 C_one C_one (1 / 10000))
    as [[[Z | Z] _] | [_ [_ ->]]]; try lra.
  f_equal. unfold verify_mode_value.
  rewrite verify_mode_wavenumbers_eq.
  assert (E : (RtoC ((2 * np.pi / 1) ^ 2) * C_one
               - RtoC ((1 * np.pi / 1) ^ 2) - Csqr run_kz)%C = C0j).
  { unfold run_kz, np.sqrt. rewrite csqrt_sqr.
    unfold run_eigenvalue, np.pi. cx_eq. }
  rewrite E, csqrt_0.
  assert (E' : (Csqr C0j - RtoC ((2 * np.pi / 1) ^ 2) * (C_one - C_one))%C
               = C0j) by cx_eq.
  rewrite E', csqrt_0, TMx_condition_0.
  apply orb_true_iff. left. apply isclose_zero. rewrite Cmod_0. lra.
Qed.

Lemma run_collect_modes (h d : R) :
  collect_modes run_eigenvalue run_error 1 run_tol 1 h d 1 C_one C_one
  = Value [run_kz].
Proof.
  unfold collect_modes, eigen_vals.
  change (range 0 1) with [0%Z]. cbn [map sort_by_real fold_right insert_by_real].
  change (np.sqrt (- run_eigenvalue 0)%C) with run_kz. cbn [verify_loop].
  assert (Ha : mode_accepted run_error run_tol 0 run_kz = true).
  { assert (Him : Cim run_kz = 0) by (rewrite run_kz_value; reflexivity).
    apply (proj2 (mode_accepted_true run_error run_tol 0 run_kz)). split.
    - unfold run_error, run_tol. lra.
    - change (Rabs (Cim run_kz) <= run_tol).
      rewrite Him, Rabs_R0. unfold run_tol. lra. }
  rewrite Ha, run_verify_mode. reflexivity.
Qed.

Lemma collect_modes_sound_witness :
  exists i : Z,
    (0 <= i < 1)%Z
    /\ (- Csqr run_kz)%C = run_eigenvalue i
    /\ 0 <= Cre run_kz /\ Rabs (Cim run_kz) <= run_tol
    /\ run_error i < run_tol
    /\ verify_mode run_kz 1 (45 / 100) (225 / 1000) 1 C_one C_one (1 / 10000)
       = Ret true.
Proof.
  apply (collect_modes_sound run_eigenvalue run_error 1 run_tol 1 (45 / 100)
           (225 / 1000) 1 C_one C_one [run_kz] run_kz).
  - apply run_collect_modes.
  - left. reflexivity.
Defined.


Lemma collect_modes_no_evanescent_witness :
  (- Csqr run_kz)%C <> RtoC 1.
Proof.
  apply (collect_modes_no_evanescent run_eigenvalue run_error 1 run_tol 1
           (45 / 100) (225 / 1000) 1 C_one C_one [run_kz] run_kz 1).
  - unfold run_tol. lra.
  - unfold run_tol. lra.
  - apply run_collect_modes.
  - left. reflexivity.
Defined.
